(** * js-validation: the schema builder, its compilation and the rule catalog

    A shallow embedding of [src/validation/schema.js] and
    [src/validation/lib/uppercase.js].

    JavaScript numbers that the builder accepts as length bounds are modelled
    by [Z] (integral bounds); an absent or [undefined] property is [None].
    Exceptions are results of an explicit state-and-error monad: a [throw]
    keeps the mutations done before it, as in JavaScript. *)

From Stdlib Require Import ZArith String Ascii List Bool Lia.
Import ListNotations.
Open Scope string_scope.
Open Scope Z_scope.

(* ================================================================== *)
(** ** Exceptions and the state monad of the embedding *)

Module Js.

(** Modelled from the spec: the texts of [ERROR_MESSAGES] that
    [schema.js] throws; [constants.js] is not among the sources, so the
    texts stay symbolic. *)
Inductive ErrorText : Type :=
| INVALID_MIN_OVER_MAX
| INVALID_MIN_MAX
| INVALID_NUMBER
| EMPTY_PROPERTY (propertyName : string).

Inductive Exn : Type :=
| TypeError
| RangeError (text : ErrorText)
| Error (text : ErrorText).

Inductive Res (A : Type) : Type :=
| Ok (a : A)
| Throw (e : Exn).
Arguments Ok {A} a.
Arguments Throw {A} e.

(** A computation over a mutable state [S]: the final state is returned
    whether or not the computation throws. *)
Definition M (S A : Type) : Type := S -> S * Res A.

Definition ret {S A} (a : A) : M S A := fun s => (s, Ok a).

Definition bind {S A B} (m : M S A) (k : A -> M S B) : M S B :=
  fun s =>
    match m s with
    | (s', Ok a) => k a s'
    | (s', Throw e) => (s', Throw e)
    end.

Definition throw {S A} (e : Exn) : M S A := fun s => (s, Throw e).
Definition get {S} : M S S := fun s => (s, Ok s).
Definition modify {S} (f : S -> S) : M S unit := fun s => (f s, Ok tt).

Definition liftRes {S A} (r : Res A) : M S A := fun s => (s, r).

Definition throws {A} (r : Res A) : bool :=
  match r with
  | Ok _ => false
  | Throw _ => true
  end.

(** The character code is within a range. *)
Definition between (lo hi : nat) (c : ascii) : bool :=
  (Nat.leb lo (nat_of_ascii c) && Nat.leb (nat_of_ascii c) hi)%bool.

(** Truthiness of an optional string argument: [undefined] and the empty
    string are falsy. *)
Definition truthy (s : option string) : bool :=
  match s with
  | Some t => negb (String.eqb t "")
  | None => false
  end.

End Js.

Import Js.

Declare Scope js_scope.
Delimit Scope js_scope with js.
Notation "x <- m ;; k" := (bind m (fun x => k))
  (at level 61, m at next level, right associativity) : js_scope.
Notation "m ;;; k" := (bind m (fun _ => k))
  (at level 61, right associativity) : js_scope.
Open Scope js_scope.

(* ================================================================== *)
(** ** The rule catalog *)

Module Rules.

(** Modelled from the spec: [rules.js] is not among the sources.  A
    regular expression of the catalog is represented by the test it
    performs (section 4.1 of the specification): the presence of a digit,
    a symbol, an uppercase or a lowercase character, the email shape, a
    bound on the length, the equality with a value. *)
Inductive Pattern : Type :=
| DigitP
| SymbolP
| UppercaseP
| LowercaseP
| EmailP
| MinLengthP (n : Z)
| MaxLengthP (n : Z)
| MatchesP (value : string).

(** Modelled from the spec: the texts of [constants.js], which is not
    among the sources, stay symbolic.  A default message is that of its
    rule, the messages of the length and match rules "interpolating" their
    argument; [Custom] is a caller's [customError]. *)
Inductive Message : Type :=
| MsgDigit
| MsgSymbol
| MsgUppercase
| MsgLowercase
| MsgEmail
| MsgRequired
| MsgMinLength (n : Z)
| MsgMaxLength (n : Z)
| MsgMatches (propertyName : string)
| Custom (text : string).

(** A rule object as [schema.js] uses it: it reads and writes [error] and
    [pattern], and reads, writes and deletes [value]. *)
Record Rule : Type := mkRule {
  value : option Z;
  pattern : option Pattern;
  error : Message
}.

(** Modelled from the spec: the character classes of the fixed rules.
    The test file of the catalog accepts "1", "$", "A" and "a" for the
    four of them and rejects "a", "a", "a" and "A". *)
Definition isDigitChar : ascii -> bool := between 48 57.
Definition isUpperChar : ascii -> bool := between 65 90.
Definition isLowerChar : ascii -> bool := between 97 122.
Definition isSymbolChar (c : ascii) : bool :=
  (between 33 47 c || between 58 64 c || between 91 96 c
   || between 123 126 c)%bool.

Definition chars (s : string) : list ascii := list_ascii_of_string s.

Definition strlen (s : string) : Z := Z.of_nat (String.length s).

Fixpoint splitAt (sep : ascii) (l : list ascii)
  : option (list ascii * list ascii) :=
  match l with
  | [] => None
  | c :: l' =>
      if Ascii.eqb c sep then Some ([], l')
      else match splitAt sep l' with
           | Some (a, b) => Some (c :: a, b)
           | None => None
           end
  end.

Definition nonEmpty (l : list ascii) : bool :=
  match l with [] => false | _ => true end.

(** Modelled from the spec: the "simple local@domain.tld shape" of the
    email rule: one [@], a non-empty local part, and a dot inside the
    domain with something on both sides. *)
Definition emailShape (s : string) : bool :=
  match splitAt "@"%char (chars s) with
  | Some (loc, dom) =>
      (nonEmpty loc && negb (existsb (Ascii.eqb "@"%char) dom) &&
       match splitAt "."%char dom with
       | Some (d, tld) => nonEmpty d && nonEmpty tld
       | None => false
       end)%bool
  | None => false
  end.

(** Modelled from the spec: [pattern.test(input)] for the patterns of the
    catalog; the length patterns test "string length >= n" and
    "string length <= n". *)
Definition test (p : Pattern) (input : string) : bool :=
  match p with
  | DigitP => existsb isDigitChar (chars input)
  | SymbolP => existsb isSymbolChar (chars input)
  | UppercaseP => existsb isUpperChar (chars input)
  | LowercaseP => existsb isLowerChar (chars input)
  | EmailP => emailShape input
  | MinLengthP n => n <=? strlen input
  | MaxLengthP n => strlen input <=? n
  | MatchesP v => String.eqb v input
  end.

(** Modelled from the spec: the fixed rules, "fixed regex + fixed default
    message, no parameters", and the [required] rule, of which [schema.js]
    reads the message only. *)
Definition DIGIT : Rule := mkRule None (Some DigitP) MsgDigit.
Definition SYMBOL : Rule := mkRule None (Some SymbolP) MsgSymbol.
Definition UPPERCASE : Rule := mkRule None (Some UppercaseP) MsgUppercase.
Definition LOWERCASE : Rule := mkRule None (Some LowercaseP) MsgLowercase.
Definition EMAIL : Rule := mkRule None (Some EmailP) MsgEmail.
Definition REQUIRED : Rule := mkRule None None MsgRequired.

(** Modelled from the spec: the descriptors of the parameterized
    factories of [rules.js], a RuleDescriptor [{ pattern, error }] "whose
    pattern tests string length >= n / <= n respectively, with a default
    message interpolating n".  The descriptor has no [value]: where
    [schema.js] needs one, in [DEFAULT_RULES] and in [validateSchema], it
    adds it by hand. *)
Definition minLengthRule (n : Z) : Rule :=
  mkRule None (Some (MinLengthP n)) (MsgMinLength n).

Definition maxLengthRule (n : Z) : Rule :=
  mkRule None (Some (MaxLengthP n)) (MsgMaxLength n).

(** Modelled from the spec: [getMinLengthRule] and [getMaxLengthRule] of
    [rules.js], which "fail with TypeError if a length argument is not a
    non-negative number". *)
Definition getMinLengthRule (n : Z) : Res Rule :=
  if n <? 0 then Throw TypeError else Ok (minLengthRule n).

Definition getMaxLengthRule (n : Z) : Res Rule :=
  if n <? 0 then Throw TypeError else Ok (maxLengthRule n).

(** Modelled from the spec: [getMatchesRule] of [rules.js], which
    "returns a descriptor whose pattern is evaluated against a pair
    (value, comparisonValue) ... default message interpolating
    propertyName". *)
Definition getMatchesRule (v : string) (propertyName : string) : Rule :=
  mkRule None (Some (MatchesP v)) (MsgMatches propertyName).

(** Modelled from the spec: the truthiness of a message, a string in the
    source.  A message of the catalog is not empty; a custom one is truthy
    when it is not the empty string. *)
Definition truthyMessage (m : Message) : bool :=
  match m with
  | Custom t => negb (String.eqb t "")
  | _ => true
  end.

End Rules.

(* ================================================================== *)
(** ** [lib/uppercase.js] *)

Module Uppercase.

(** [const pattern = /[A-Z]/;] *)
Definition pattern (v : string) : bool :=
  existsb (between 65 90) (list_ascii_of_string v).

(** What the validator function returns: the boolean [true] or a string. *)
Inductive Outcome : Type :=
| JsBool (b : bool)
| JsString (s : string).

(** [export default function lowercase(errorMessage)], returning the
    inner function [uppercase(value)]:
    [return pattern.test(value) || errorMessage;] *)
Definition lowercase (errorMessage : string) : string -> Outcome :=
  fun v => if pattern v then JsBool true else JsString errorMessage.

(** The value has a character in the range A-Z. *)
Definition containsUppercase (v : string) : Prop :=
  exists c : ascii,
    In c (list_ascii_of_string v) /\
    (65 <= nat_of_ascii c <= 90)%nat.

End Uppercase.

(* ================================================================== *)
(** ** [schema.js]: the builder *)

Module Schema.
Import Rules.

(** The property names of the [rules] object. *)
Inductive RuleKind : Type :=
| Kminimum
| Kmaximum
| Kdigit
| Ksymbol
| Kuppercase
| Klowercase
| Kemail
| KmatchingProperty.

Definition kindIndex (k : RuleKind) : nat :=
  match k with
  | Kminimum => 0 | Kmaximum => 1 | Kdigit => 2 | Ksymbol => 3
  | Kuppercase => 4 | Klowercase => 5 | Kemail => 6
  | KmatchingProperty => 7
  end%nat.

Definition kindEqb (a b : RuleKind) : bool :=
  Nat.eqb (kindIndex a) (kindIndex b).

(** The two rule objects of the module-level constant [DEFAULT_RULES] are
    shared by every instance: [{ ...DEFAULT_RULES }] copies the two
    references, not the objects.  An entry of [rules] is therefore either
    a reference to one of them or an object of the instance's own. *)
Inductive Shared : Type :=
| DefaultMinimum
| DefaultMaximum.

Inductive Entry : Type :=
| Ref (a : Shared)
| Own (r : Rule).

(** The current contents of the two shared objects. *)
Record Defaults : Type := mkDefaults {
  d_minimum : Rule;
  d_maximum : Rule
}.

(** Modelled from the spec: [SCHEMA.DEFAULT_MIN] of [constants.js], which
    is not among the sources; a bound "must be a number >= 0 (the
    catalog's sentinel minimum)". *)
Definition DEFAULT_MIN : Z := 0.

(** [{ value: v, ...rule }] *)
Definition spreadOverValue (v : Z) (r : Rule) : Rule :=
  match value r with
  | Some _ => r
  | None => mkRule (Some v) (pattern r) (error r)
  end.

Section Constants.
(** [SCHEMA.DEFAULT_MAX] of [constants.js], which is not among the
    sources: a parameter of the embedding. *)
Variable DEFAULT_MAX : N.

(** [const DEFAULT_RULES = { minimum: {...}, maximum: {...} }], as the
    module leaves it when it is loaded.  Both arguments being
    non-negative, the factories do not throw. *)
Definition DEFAULT_RULES : Defaults :=
  {| d_minimum := spreadOverValue DEFAULT_MIN (minLengthRule DEFAULT_MIN);
     d_maximum := spreadOverValue (Z.of_N DEFAULT_MAX)
                    (maxLengthRule (Z.of_N DEFAULT_MAX)) |}.
End Constants.

(** [Object.keys(DEFAULT_RULES)] *)
Definition DEFAULT_KEYS : list RuleKind := [Kminimum; Kmaximum].

(** The private [#schema] object.  [s_rules] keeps the properties of
    [rules] in insertion order, the order of [Object.values]. *)
Record State : Type := mkState {
  s_rules : list (RuleKind * Entry);
  s_label : option string;
  s_required : option Message;
  s_matchingProperty : option string
}.

Record World : Type := mkWorld {
  defaults : Defaults;
  schema : State
}.

(** [#schema = { rules: { ...DEFAULT_RULES } }] *)
Definition newSchema : State :=
  {| s_rules := [(Kminimum, Ref DefaultMinimum); (Kmaximum, Ref DefaultMaximum)];
     s_label := None;
     s_required := None;
     s_matchingProperty := None |}.

(** *** Property access on [rules] *)

(** [rules[k]] *)
Fixpoint lookup (k : RuleKind) (rs : list (RuleKind * Entry)) : option Entry :=
  match rs with
  | [] => None
  | (k', e) :: rs' => if kindEqb k k' then Some e else lookup k rs'
  end.

(** [rules[k] = e]: an existing property keeps its place, a new one goes
    last. *)
Fixpoint assign (k : RuleKind) (e : Entry) (rs : list (RuleKind * Entry))
  : list (RuleKind * Entry) :=
  match rs with
  | [] => [(k, e)]
  | (k', e') :: rs' =>
      if kindEqb k k' then (k', e) :: rs' else (k', e') :: assign k e rs'
  end.

Definition deref (d : Defaults) (e : Entry) : Rule :=
  match e with
  | Ref DefaultMinimum => d_minimum d
  | Ref DefaultMaximum => d_maximum d
  | Own r => r
  end.

Definition setRules (rs : list (RuleKind * Entry)) (s : State) : State :=
  mkState rs (s_label s) (s_required s) (s_matchingProperty s).

(** [this.#schema.rules[k] = { ...r }] *)
Definition setRule (k : RuleKind) (r : Rule) : M World unit :=
  modify (fun w =>
    mkWorld (defaults w) (setRules (assign k (Own r) (s_rules (schema w))) (schema w))).

(** Writing through [rules[k]]: the object it refers to is changed in
    place, wherever it lives; [rules[k]] being [undefined] is a
    [TypeError]. *)
Definition updateObject (k : RuleKind) (f : Rule -> Rule) : M World unit :=
  fun w =>
    match lookup k (s_rules (schema w)) with
    | None => (w, Throw TypeError)
    | Some (Own r) =>
        (mkWorld (defaults w)
           (setRules (assign k (Own (f r)) (s_rules (schema w))) (schema w)),
         Ok tt)
    | Some (Ref DefaultMinimum) =>
        (mkWorld (mkDefaults (f (d_minimum (defaults w))) (d_maximum (defaults w)))
           (schema w), Ok tt)
    | Some (Ref DefaultMaximum) =>
        (mkWorld (mkDefaults (d_minimum (defaults w)) (f (d_maximum (defaults w))))
           (schema w), Ok tt)
    end.

(** [rules[k].value] *)
Definition readValue (k : RuleKind) : M World (option Z) :=
  fun w =>
    match lookup k (s_rules (schema w)) with
    | None => (w, Throw TypeError)
    | Some e => (w, Ok (value (deref (defaults w) e)))
    end.

Definition withError (m : Message) (r : Rule) : Rule :=
  mkRule (value r) (pattern r) m.

Definition deleteValue (r : Rule) : Rule :=
  mkRule None (pattern r) (error r).

(** [if (customError) { this.#schema.rules[k].error = customError; }] *)
Definition overrideError (k : RuleKind) (customError : option string)
  : M World unit :=
  match customError with
  | Some t =>
      if truthy customError then updateObject k (withError (Custom t))
      else ret tt
  | None => ret tt
  end.

(** *** Helper functions *)

(** [validateType(value, isNumber)], of [utils.js], holds by the type of
    [v]. *)
Definition validateLength (v : Z) : M World unit :=
  if v <? DEFAULT_MIN then throw (RangeError INVALID_NUMBER) else ret tt.

(** [validateType(value, isString)] holds by the type of [v];
    [isEmptyString], of [utils.js], is the comparison with the empty
    string. *)
Definition validateStringInput (v : string) (propertyName : string)
  : M World unit :=
  if String.eqb v "" then throw (Error (EMPTY_PROPERTY propertyName))
  else ret tt.

(** *** Builder methods; each returns [this] *)

Definition min (v : Z) (customError : option string) : M World unit :=
  validateLength v ;;;
  r <- liftRes (getMaxLengthRule v) ;;
  setRule Kminimum r ;;;
  overrideError Kminimum customError.

Definition max (v : Z) (customError : option string) : M World unit :=
  validateLength v ;;;
  r <- liftRes (getMaxLengthRule v) ;;
  setRule Kmaximum r ;;;
  overrideError Kmaximum customError.

Definition hasDigit (customError : option string) : M World unit :=
  setRule Kdigit DIGIT ;;;
  overrideError Kdigit customError.

Definition hasSymbol (customError : option string) : M World unit :=
  setRule Ksymbol SYMBOL ;;;
  overrideError Ksymbol customError.

Definition hasUppercase (customError : option string) : M World unit :=
  setRule Kuppercase UPPERCASE ;;;
  overrideError Kuppercase customError.

Definition hasLowercase (customError : option string) : M World unit :=
  setRule Klowercase LOWERCASE ;;;
  overrideError Kuppercase customError.

Definition label (name : string) : M World unit :=
  validateStringInput name "Label" ;;;
  modify (fun w =>
    mkWorld (defaults w)
      (mkState (s_rules (schema w)) (Some name) (s_required (schema w))
         (s_matchingProperty (schema w)))).

Definition isEmail (customError : option string) : M World unit :=
  setRule Kemail EMAIL ;;;
  overrideError Kemail customError.

(** [customError ? customError : Rules.REQUIRED.error] *)
Definition requiredMessage (customError : option string) : Message :=
  match customError with
  | Some t => if truthy customError then Custom t else error REQUIRED
  | None => error REQUIRED
  end.

Definition isRequired (customError : option string) : M World unit :=
  modify (fun w =>
    mkWorld (defaults w)
      (mkState (s_rules (schema w)) (s_label (schema w))
         (Some (requiredMessage customError))
         (s_matchingProperty (schema w)))).

(** [customError ? { error: customError } : { error }] *)
Definition matchRule (name : string) (customError : option string) : Rule :=
  match customError with
  | Some t =>
      if truthy customError then mkRule None None (Custom t)
      else mkRule None None (error (getMatchesRule "" name))
  | None => mkRule None None (error (getMatchesRule "" name))
  end.

Definition matches (name : string) (customError : option string)
  : M World unit :=
  validateStringInput name "Matching property" ;;;
  modify (fun w =>
    mkWorld (defaults w)
      (mkState (s_rules (schema w)) (s_label (schema w))
         (s_required (schema w)) (Some name))) ;;;
  setRule KmatchingProperty (matchRule name customError).

(** *** Getters *)

Definition present (k : RuleKind) (w : World) : bool :=
  match lookup k (s_rules (schema w)) with
  | Some _ => true
  | None => false
  end.

Definition minimum (w : World) : Res (option Z) := snd (readValue Kminimum w).
Definition maximum (w : World) : Res (option Z) := snd (readValue Kmaximum w).
Definition digit : World -> bool := present Kdigit.
Definition symbol : World -> bool := present Ksymbol.
Definition uppercase : World -> bool := present Kuppercase.
Definition lowercase : World -> bool := present Klowercase.
Definition email : World -> bool := present Kemail.
Definition alias (w : World) : option string := s_label (schema w).
Definition required (w : World) : bool :=
  match s_required (schema w) with
  | Some m => truthyMessage m
  | None => false
  end.
Definition matchingProperty (w : World) : option string :=
  s_matchingProperty (schema w).

(** *** Compilation *)

(** What [validateSchema] returns.  An element of [c_rules] is [None] when
    the array holds [undefined]. *)
Record Compiled : Type := mkCompiled {
  c_label : option string;
  c_required : option Message;
  c_matchingProperty : option string;
  c_rules : list (option Rule)
}.

(** Comparisons of [value] properties: with [undefined] on either side
    [>] and [<] are false, and [===] against a number is false. *)
Definition jsGt (a b : option Z) : bool :=
  match a, b with
  | Some x, Some y => y <? x
  | _, _ => false
  end.

Definition jsLt (a : option Z) (n : Z) : bool :=
  match a with
  | Some x => x <? n
  | None => false
  end.

Definition isDefaultMin (a : option Z) : bool :=
  match a with
  | Some x => x =? DEFAULT_MIN
  | None => false
  end.

(** [Object.values(rules)] *)
Definition values (d : Defaults) (rs : list (RuleKind * Entry))
  : list (option Rule) :=
  map (fun kv => Some (deref d (snd kv))) rs.

Definition validateSchema : M World Compiled :=
  w <- get ;;
  let s := schema w in
  if truthy (s_matchingProperty s) then
    ret {| c_label := s_label s;
           c_required := s_required s;
           c_matchingProperty := s_matchingProperty s;
           c_rules := [option_map (deref (defaults w))
                         (lookup KmatchingProperty (s_rules s))] |}
  else
    match lookup Kemail (s_rules s) with
    | Some e =>
        ret {| c_label := s_label s;
               c_required := s_required s;
               c_matchingProperty := None;
               c_rules := [Some (deref (defaults w) e)] |}
    | None =>
        let requiredChars :=
          Z.of_nat (length (s_rules s)) - Z.of_nat (length DEFAULT_KEYS) in
        minValue <- readValue Kminimum ;;
        (if isDefaultMin minValue then
           minRule <- liftRes (getMinLengthRule requiredChars) ;;
           updateObject Kminimum
             (fun _ => mkRule (Some requiredChars) (pattern minRule) (error minRule))
         else ret tt) ;;;
        minValue <- readValue Kminimum ;;
        maxValue <- readValue Kmaximum ;;
        if jsGt minValue maxValue then throw (Error INVALID_MIN_OVER_MAX)
        else if (jsLt maxValue requiredChars || jsLt minValue requiredChars)%bool
        then throw (Error INVALID_MIN_MAX)
        else
          updateObject Kminimum deleteValue ;;;
          updateObject Kmaximum deleteValue ;;;
          w' <- get ;;
          ret {| c_label := s_label (schema w');
                 c_required := s_required (schema w');
                 c_matchingProperty := s_matchingProperty (schema w');
                 c_rules := values (defaults w') (s_rules (schema w')) |}
    end.

(** *** Chains of builder calls *)

Inductive Call : Type :=
| Min (v : Z) (customError : option string)
| Max (v : Z) (customError : option string)
| HasDigit (customError : option string)
| HasSymbol (customError : option string)
| HasUppercase (customError : option string)
| HasLowercase (customError : option string)
| Label (name : string)
| IsEmail (customError : option string)
| IsRequired (customError : option string)
| Matches (name : string) (customError : option string).

Definition call (c : Call) : M World unit :=
  match c with
  | Min v ce => min v ce
  | Max v ce => max v ce
  | HasDigit ce => hasDigit ce
  | HasSymbol ce => hasSymbol ce
  | HasUppercase ce => hasUppercase ce
  | HasLowercase ce => hasLowercase ce
  | Label name => label name
  | IsEmail ce => isEmail ce
  | IsRequired ce => isRequired ce
  | Matches name ce => matches name ce
  end.

(** [new Schema().c1(..).c2(..)...]: the chain stops at the first call
    that throws. *)
Fixpoint chain (cs : list Call) : M World unit :=
  match cs with
  | [] => ret tt
  | c :: cs' => call c ;;; chain cs'
  end.

(** The number of character-class rules the getters report. *)
Definition classCount (w : World) : Z :=
  Z.b2z (digit w) + Z.b2z (symbol w) + Z.b2z (uppercase w)
  + Z.b2z (lowercase w).

End Schema.

(* ================================================================== *)
(** ** The validator *)

Module Validation.
Import Rules Schema.

(** [{ isValid, errors }] for one field. *)
Record Result : Type := mkResult {
  isValid : bool;
  errors : list Message
}.

(** Modelled from the spec: [validation.js] is not among the sources.
    Single-value mode (section 4.3): every rule of the compiled list is
    tested against the input in list order and every failing rule reports
    its message.  An array element that is [undefined], or a rule without
    a pattern, cannot be tested: a [TypeError]. *)
Fixpoint failures (input : string) (rs : list (option Rule))
  : Res (list Message) :=
  match rs with
  | [] => Ok []
  | Some r :: rs' =>
      match pattern r with
      | Some p =>
          match failures input rs' with
          | Ok ms => Ok (if test p input then ms else error r :: ms)
          | Throw e => Throw e
          end
      | None => Throw TypeError
      end
  | None :: _ => Throw TypeError
  end.

(** Modelled from the spec: match-pair mode (section 4.3), "the single
    match rule evaluates equality between them"; [partner] is the value of
    the matching property, [None] when the input holds none.  The messages
    are those of the compiled rules; the decoration of a message with the
    labels of both schemas is outside this model. *)
Fixpoint messages (rs : list (option Rule)) : Res (list Message) :=
  match rs with
  | [] => Ok []
  | Some r :: rs' =>
      match messages rs' with
      | Ok ms => Ok (error r :: ms)
      | Throw e => Throw e
      end
  | None :: _ => Throw TypeError
  end.

Definition sameValue (input : string) (partner : option string) : bool :=
  match partner with
  | Some v => test (MatchesP v) input
  | None => false
  end.

Definition report (ms : list Message) : Result :=
  mkResult (match ms with [] => true | _ => false end) ms.

(** Modelled from the spec: the evaluation of one value against one
    compiled schema (section 4.3).  "If required is set and input is
    empty, short-circuit: fail with only the required message"; match-pair
    mode is "triggered when the compiled schema carries a
    matchingProperty". *)
Definition evaluate (input : string) (partner : option string) (c : Compiled)
  : Res Result :=
  let rest :=
    if truthy (c_matchingProperty c) then
      if sameValue input partner then Ok (report [])
      else match messages (c_rules c) with
           | Ok ms => Ok (report ms)
           | Throw e => Throw e
           end
    else
      match failures input (c_rules c) with
      | Ok ms => Ok (report ms)
      | Throw e => Throw e
      end in
  match c_required c with
  | Some m =>
      if (truthyMessage m && String.eqb input "")%bool
      then Ok (mkResult false [m])
      else rest
  | None => rest
  end.

(** Modelled from the spec: [validate(input, schema)]; compilation "is
    invoked automatically by the validator". *)
Definition validate (input : string) (partner : option string)
  : M World Result :=
  c <- validateSchema ;;
  liftRes (evaluate input partner c).

End Validation.

(* ================================================================== *)
(** ** [components/Demo/DemoForm.jsx]: the schemas of the demo form *)

Module Demo.
Import Schema.

Definition password : list Call :=
  [Min 5 (Some "My custom min error message."); Max 7 None;
   HasDigit (Some "My custom digit error message."); HasSymbol None;
   IsRequired None].

Definition confirmPassword : list Call :=
  [Matches "password" (Some "MUST MATCH"); IsRequired None].

End Demo.

(* ================================================================== *)
(** ** Invariants of builder states *)

Module Invariant.
Import Rules Schema.

(** [customError] applied to a fresh copy of a catalog rule. *)
Definition customize (customError : option string) (r : Rule) : Rule :=
  match customError with
  | Some t => if truthy customError then withError (Custom t) r else r
  | None => r
  end.

(** The world after [rules[k] = { ...r }] and the optional override of the
    message of that same object. *)
Definition attach (k : RuleKind) (r : Rule) (customError : option string)
    (w : World) : World :=
  mkWorld (defaults w)
    (setRules (assign k (Own (customize customError r)) (s_rules (schema w)))
       (schema w)).

Definition has (k : RuleKind) (rs : list (RuleKind * Entry)) : bool :=
  match lookup k rs with
  | Some _ => true
  | None => false
  end.

(** The number of distinct property names of [rules]. *)
Definition keyCount (rs : list (RuleKind * Entry)) : Z :=
  Z.b2z (has Kminimum rs) + Z.b2z (has Kmaximum rs)
  + Z.b2z (has Kdigit rs) + Z.b2z (has Ksymbol rs)
  + Z.b2z (has Kuppercase rs) + Z.b2z (has Klowercase rs)
  + Z.b2z (has Kemail rs) + Z.b2z (has KmatchingProperty rs).

(** What a builder can store under a property name: a shared default only
    under its own name, and an object with a non-empty message and a
    pattern everywhere except for the match rule, which has no pattern. *)
Definition ruleOk (k : RuleKind) (r : Rule) : Prop :=
  truthyMessage (error r) = true /\
  match k with
  | KmatchingProperty => pattern r = None
  | _ => pattern r <> None
  end.

Definition entryOk (k : RuleKind) (e : Entry) : Prop :=
  match e with
  | Ref DefaultMinimum => k = Kminimum
  | Ref DefaultMaximum => k = Kmaximum
  | Own r => ruleOk k r
  end.

Record wf (s : State) : Prop := mkWf {
  wf_count : Z.of_nat (length (s_rules s)) = keyCount (s_rules s);
  wf_entries : Forall (fun kv => entryOk (fst kv) (snd kv)) (s_rules s);
  wf_minimum : has Kminimum (s_rules s) = true;
  wf_maximum : has Kmaximum (s_rules s) = true;
  wf_matching : has KmatchingProperty (s_rules s) = truthy (s_matchingProperty s)
}.

(** The shared default objects keep a pattern whatever is compiled. *)
Definition storeOk (d : Defaults) : Prop :=
  ruleOk Kminimum (d_minimum d) /\ ruleOk Kmaximum (d_maximum d).

(** A state reached by a chain of builder calls none of which threw. *)
Definition built (cs : list Call) (d : Defaults) (w : World) : Prop :=
  chain cs (mkWorld d newSchema) = (w, Ok tt).

Definition isMatches (c : Call) : bool :=
  match c with Matches _ _ => true | _ => false end.

Definition isIsEmail (c : Call) : bool :=
  match c with IsEmail _ => true | _ => false end.

Definition isIsRequired (c : Call) : bool :=
  match c with IsRequired _ => true | _ => false end.

Definition isLabel (c : Call) : bool :=
  match c with Label _ => true | _ => false end.

Definition isMin (c : Call) : bool :=
  match c with Min _ _ => true | _ => false end.

Definition isMax (c : Call) : bool :=
  match c with Max _ _ => true | _ => false end.

(** An entry that is an object of the instance's own holds no [value]. *)
Definition unvalued (kv : RuleKind * Entry) : Prop :=
  match snd kv with
  | Own r => value r = None
  | Ref _ => True
  end.

(** The property of [rules] a call assigns. *)
Definition assigns (c : Call) : option RuleKind :=
  match c with
  | Min _ _ => Some Kminimum
  | Max _ _ => Some Kmaximum
  | HasDigit _ => Some Kdigit
  | HasSymbol _ => Some Ksymbol
  | HasUppercase _ => Some Kuppercase
  | HasLowercase _ => Some Klowercase
  | IsEmail _ => Some Kemail
  | Matches _ _ => Some KmatchingProperty
  | Label _ | IsRequired _ => None
  end.

(** Whether a call may change the object stored under [k]. *)
Definition writes (c : Call) (k : RuleKind) : bool :=
  match assigns c with
  | Some k' => kindEqb k k'
  | None => false
  end
  || match c with
     | HasLowercase _ => kindEqb k Kuppercase
     | _ => false
     end.

(** The closed form of one builder call. *)
Definition step (c : Call) (w : World) : World * Res unit :=
  match c with
  | Min v ce =>
      if v <? 0 then (w, Throw (RangeError INVALID_NUMBER))
      else (attach Kminimum (maxLengthRule v) ce w, Ok tt)
  | Max v ce =>
      if v <? 0 then (w, Throw (RangeError INVALID_NUMBER))
      else (attach Kmaximum (maxLengthRule v) ce w, Ok tt)
  | HasDigit ce => (attach Kdigit DIGIT ce w, Ok tt)
  | HasSymbol ce => (attach Ksymbol SYMBOL ce w, Ok tt)
  | HasUppercase ce => (attach Kuppercase UPPERCASE ce w, Ok tt)
  | HasLowercase ce =>
      overrideError Kuppercase ce (attach Klowercase LOWERCASE None w)
  | Label name =>
      if String.eqb name "" then (w, Throw (Error (EMPTY_PROPERTY "Label")))
      else (mkWorld (defaults w)
              (mkState (s_rules (schema w)) (Some name)
                 (s_required (schema w)) (s_matchingProperty (schema w))),
            Ok tt)
  | IsEmail ce => (attach Kemail EMAIL ce w, Ok tt)
  | IsRequired ce =>
      (mkWorld (defaults w)
         (mkState (s_rules (schema w)) (s_label (schema w))
            (Some (requiredMessage ce)) (s_matchingProperty (schema w))),
       Ok tt)
  | Matches name ce =>
      if String.eqb name ""
      then (w, Throw (Error (EMPTY_PROPERTY "Matching property")))
      else (mkWorld (defaults w)
              (mkState
                 (assign KmatchingProperty (Own (matchRule name ce))
                    (s_rules (schema w)))
                 (s_label (schema w)) (s_required (schema w)) (Some name)),
            Ok tt)
  end.

(** The object [rules[k]] refers to, if any. *)
Definition object (k : RuleKind) (w : World) : option Rule :=
  option_map (deref (defaults w)) (lookup k (s_rules (schema w))).

(** The two halves of the last branch of [validateSchema]: the
    replacement of a sentinel minimum, then the checks and the clean-up. *)
Definition resolveMinimum (requiredChars : Z) : M World unit :=
  minValue <- readValue Kminimum ;;
  if isDefaultMin minValue then
    minRule <- liftRes (getMinLengthRule requiredChars) ;;
    updateObject Kminimum
      (fun _ => mkRule (Some requiredChars) (pattern minRule) (error minRule))
  else ret tt.

Definition checkBounds (requiredChars : Z) : M World Compiled :=
  minValue <- readValue Kminimum ;;
  maxValue <- readValue Kmaximum ;;
  if jsGt minValue maxValue then throw (Error INVALID_MIN_OVER_MAX)
  else if (jsLt maxValue requiredChars || jsLt minValue requiredChars)%bool
  then throw (Error INVALID_MIN_MAX)
  else
    updateObject Kminimum deleteValue ;;;
    updateObject Kmaximum deleteValue ;;;
    w' <- get ;;
    ret {| c_label := s_label (schema w');
           c_required := s_required (schema w');
           c_matchingProperty := s_matchingProperty (schema w');
           c_rules := values (defaults w') (s_rules (schema w')) |}.

(** The minimum rule once a sentinel value has been replaced: [value],
    [error] and [pattern] are overwritten. *)
Definition resolved (k : Z) (r : Rule) : Rule :=
  if isDefaultMin (value r)
  then mkRule (Some k) (pattern (minLengthRule k)) (error (minLengthRule k))
  else r.

(** An element of a compiled [rules] array that is an object with a
    non-empty error message, and one that has a pattern as well. *)
Definition carriesError (o : option Rule) : Prop :=
  exists r, o = Some r /\ truthyMessage (error r) = true.

Definition carriesPatternAndError (o : option Rule) : Prop :=
  exists r p,
    o = Some r /\ pattern r = Some p /\ truthyMessage (error r) = true.

End Invariant.

(* ================================================================== *)
(** ** [hooks/useForm.js]: the helpers of the form hook *)

Module UseForm.
Import Schema.

(** The schema of a form, a plain object as [DemoForm.jsx] writes it: its
    own properties, each name once and each value a [Schema] instance, in
    the order [for ... in] visits them.  Its prototype is
    [Object.prototype], none of whose properties is enumerable. *)
Definition FormSchema : Type := list (string * State).

(** The values of a form and its state. *)
Definition Form : Type := list (string * string).

Record FormState : Type := mkFormState {
  form : Form;
  errors : list (string * list Rules.Message);
  submitError : string
}.

(** The own property [name] of an object, if it has one. *)
Fixpoint field {A} (name : string) (o : list (string * A)) : option A :=
  match o with
  | [] => None
  | (k, v) :: o' => if String.eqb name k then Some v else field name o'
  end.

(** Defining or overwriting the own property [name]. *)
Fixpoint setField {A} (name : string) (v : A) (o : list (string * A))
  : list (string * A) :=
  match o with
  | [] => [(name, v)]
  | (k, v') :: o' =>
      if String.eqb name k then (k, v) :: o' else (k, v') :: setField name v o'
  end.

(** The names of the properties of [Object.prototype], which a plain object
    inherits: eleven methods and the accessor [__proto__]. *)
Definition objectPrototype : list string :=
  ["constructor"; "hasOwnProperty"; "isPrototypeOf"; "propertyIsEnumerable";
   "toLocaleString"; "toString"; "valueOf"; "__defineGetter__";
   "__defineSetter__"; "__lookupGetter__"; "__lookupSetter__"; "__proto__"].

Definition inherited (name : string) : bool :=
  existsb (String.eqb name) objectPrototype.

(** [object.hasOwnProperty(name)]: the method of [Object.prototype], unless
    the object has a property named [hasOwnProperty] of its own; its value,
    a [Schema] instance, is not a function and the call is a [TypeError]. *)
Definition hasOwnProperty {A} (o : list (string * A)) (name : string)
  : Res bool :=
  match field "hasOwnProperty" o with
  | Some _ => Throw TypeError
  | None => Ok (match field name o with Some _ => true | None => false end)
  end.

(** [form[property] = v] for a string [v]: on an object without a property
    [__proto__] of its own the assignment to that name reaches the setter of
    [Object.prototype], which ignores a value that is not an object. *)
Definition assignString (property v : string) (f : Form) : Form :=
  match field property f with
  | Some _ => setField property v f
  | None =>
      if String.eqb property "__proto__" then f else setField property v f
  end.

Section Init.
(** [EMPTY_VALUE] of [constants.js], which is not among the sources: a
    string, a parameter of the embedding. *)
Variable EMPTY_VALUE : string.

(** The loop of [init] over the properties still to visit:
    [for (const property in schema) {
       if (schema.hasOwnProperty(property)) form[property] = EMPTY_VALUE; }] *)
Fixpoint emptyFields (schema rest : FormSchema) (f : Form) : Res Form :=
  match rest with
  | [] => Ok f
  | (property, _) :: rest' =>
      match hasOwnProperty schema property with
      | Throw e => Throw e
      | Ok true =>
          emptyFields schema rest' (assignString property EMPTY_VALUE f)
      | Ok false => emptyFields schema rest' f
      end
  end.

(** [function init(schema, initialFormState)]; [None] is [null]. *)
Definition init (schema : FormSchema) (initialFormState : option Form)
  : Res FormState :=
  match initialFormState with
  | Some f => Ok (mkFormState f [] EMPTY_VALUE)
  | None =>
      match emptyFields schema schema [] with
      | Ok f => Ok (mkFormState f [] EMPTY_VALUE)
      | Throw e => Throw e
      end
  end.
End Init.

(** [x === currentProperty] for [x] a string or [undefined]. *)
Definition isProperty (x : option string) (currentProperty : string) : bool :=
  match x with
  | Some p => String.eqb p currentProperty
  | None => false
  end.

(** [const { matchingProperty } = formSchema[currentProperty];]: the
    getter of the instance when the property is the form's own; [undefined]
    when the name is inherited, its value a function or [Object.prototype]
    itself; a [TypeError] when [formSchema[currentProperty]] is
    [undefined]. *)
Definition ownMatchingProperty (currentProperty : string)
    (formSchema : FormSchema) : Res (option string) :=
  match field currentProperty formSchema with
  | Some s => Ok (s_matchingProperty s)
  | None => if inherited currentProperty then Ok None else Throw TypeError
  end.

(** The loop of [getMatchingProperty] over the properties still to visit;
    falling out of it returns [undefined]. *)
Fixpoint findMatching (currentProperty : string) (formSchema rest : FormSchema)
  : Res (option string) :=
  match rest with
  | [] => Ok None
  | (schema, s) :: rest' =>
      if String.eqb schema currentProperty
      then findMatching currentProperty formSchema rest'
      else
        match hasOwnProperty formSchema schema with
        | Throw e => Throw e
        | Ok own =>
            if (own && isProperty (s_matchingProperty s) currentProperty)%bool
            then Ok (Some schema)
            else findMatching currentProperty formSchema rest'
        end
  end.

(** [function getMatchingProperty(currentProperty, formSchema)] *)
Definition getMatchingProperty (currentProperty : string)
    (formSchema : FormSchema) : Res (option string) :=
  match ownMatchingProperty currentProperty formSchema with
  | Throw e => Throw e
  | Ok matchingProperty =>
      if truthy matchingProperty then Ok matchingProperty
      else findMatching currentProperty formSchema formSchema
  end.

End UseForm.

(* ================================================================== *)
(** ** Further notions used by the properties of the builder *)

Module Laws.
Import Rules Schema Invariant.

(** Two calls of the same setter, [hasLowercase] apart, which also writes
    to the uppercase rule. *)
Definition sameSetter (c1 c2 : Call) : bool :=
  match c1, c2 with
  | Min _ _, Min _ _ | Max _ _, Max _ _
  | HasDigit _, HasDigit _ | HasSymbol _, HasSymbol _
  | HasUppercase _, HasUppercase _ | Label _, Label _
  | IsEmail _, IsEmail _ | IsRequired _, IsRequired _
  | Matches _ _, Matches _ _ => true
  | _, _ => false
  end.

(** The property names of [rules], in the order of [Object.keys]. *)
Definition keys (w : World) : list RuleKind :=
  map fst (s_rules (schema w)).

(** The minimum bound the checks of [validateSchema] use: the number of
    required characters in place of the sentinel. *)
Definition effectiveMinimum (requiredChars a : Z) : Z :=
  if a =? DEFAULT_MIN then requiredChars else a.

(** An entry that holds no [value], the length bounds apart. *)
Definition valueFree (kv : RuleKind * Entry) : Prop :=
  match snd kv with
  | Own r =>
      match fst kv with
      | Kminimum | Kmaximum => True
      | _ => value r = None
      end
  | Ref _ => True
  end.

(** The password and confirmation fields of the demo form as one form
    schema. *)
Definition passwordPair : UseForm.FormSchema :=
  [("password",
    schema (fst (chain Demo.password (mkWorld (DEFAULT_RULES 255) newSchema))));
   ("confirmPassword",
    schema (fst (chain Demo.confirmPassword
                   (mkWorld (DEFAULT_RULES 255) newSchema))))].

(** A compiled rule that is an object without a [value] property. *)
Definition hasNoValue (o : option Rule) : Prop :=
  exists r, o = Some r /\ value r = None.

(** The outcome of the two checks of [validateSchema] on the minimum and
    maximum rules [r1] and [r2]: the error thrown, if any. *)
Definition boundsError (requiredChars : Z) (r1 r2 : Rule) : option Exn :=
  if jsGt (value r1) (value r2) then Some (Error INVALID_MIN_OVER_MAX)
  else if (jsLt (value r2) requiredChars || jsLt (value r1) requiredChars)%bool
       then Some (Error INVALID_MIN_MAX)
       else None.

(** The element that a successful compilation of the builder state [w]
    returns for the property [k] of [rules]: the length rules lose their
    [value], a sentinel minimum is replaced first, and any other rule is
    returned as it is. *)
Definition compiledRule (w : World) (k : RuleKind) : option Rule :=
  match k with
  | Kminimum =>
      option_map (fun r => deleteValue (resolved (classCount w) r))
        (object Kminimum w)
  | Kmaximum => option_map deleteValue (object Kmaximum w)
  | _ => object k w
  end.

End Laws.

(* ================================================================== *)
(** * Properties *)

Import Rules Schema Validation Invariant.

(** ** Property access *)

Lemma kindEqb_eq (a b : RuleKind) : kindEqb a b = true <-> a = b.
Proof.
  destruct a, b; cbn; split; intro H; try reflexivity; discriminate.
Qed.

Lemma kindEqb_refl (k : RuleKind) : kindEqb k k = true.
Proof. now apply kindEqb_eq. Qed.

Lemma kindEqb_sym (a b : RuleKind) : kindEqb a b = kindEqb b a.
Proof. destruct a, b; reflexivity. Qed.

Lemma lookup_assign (k k' : RuleKind) (e : Entry) rs :
  lookup k (assign k' e rs) = if kindEqb k k' then Some e else lookup k rs.
Proof.
  induction rs as [|[k0 e0] rs IH]; cbn.
  - destruct (kindEqb k k'); reflexivity.
  - destruct (kindEqb k' k0) eqn:E; cbn.
    + apply kindEqb_eq in E; subst k0.
      destruct (kindEqb k k'); reflexivity.
    + destruct (kindEqb k k0) eqn:E0.
      * apply kindEqb_eq in E0; subst k0.
        rewrite kindEqb_sym, E. reflexivity.
      * exact IH.
Qed.

Lemma assign_assign (k : RuleKind) (e e' : Entry) rs :
  assign k e' (assign k e rs) = assign k e' rs.
Proof.
  induction rs as [|[k0 e0] rs IH]; cbn.
  - now rewrite kindEqb_refl.
  - destruct (kindEqb k k0) eqn:E; cbn; rewrite E; [reflexivity|].
    now rewrite IH.
Qed.

Lemma length_assign (k : RuleKind) (e : Entry) rs :
  length (assign k e rs) = if has k rs then length rs else S (length rs).
Proof.
  unfold has.
  induction rs as [|[k0 e0] rs IH]; cbn; [reflexivity|].
  destruct (kindEqb k k0); cbn; [reflexivity|].
  rewrite IH. now destruct (lookup k rs).
Qed.

Lemma has_assign (k k' : RuleKind) (e : Entry) rs :
  has k (assign k' e rs) = (kindEqb k k' || has k rs)%bool.
Proof.
  unfold has. rewrite lookup_assign. now destruct (kindEqb k k').
Qed.

Lemma keyCount_assign (k : RuleKind) (e : Entry) rs :
  Z.of_nat (length rs) = keyCount rs ->
  Z.of_nat (length (assign k e rs)) = keyCount (assign k e rs).
Proof.
  intro H. rewrite length_assign. unfold keyCount in *.
  rewrite !has_assign.
  destruct k; cbn [kindEqb kindIndex Nat.eqb orb];
    match goal with |- context [if has ?k0 rs then _ else _] =>
      destruct (has k0 rs) end;
    cbn [Z.b2z] in *; lia.
Qed.

(** ** The closed form of the builder methods *)

Lemma attach_eq (k : RuleKind) (r : Rule) (ce : option string) (w : World) :
  (setRule k r ;;; overrideError k ce) w = (attach k r ce w, Ok tt).
Proof.
  unfold attach, customize, overrideError, setRule, bind, modify.
  destruct ce as [t|]; [|reflexivity].
  destruct (truthy (Some t)); [|reflexivity].
  unfold updateObject; cbn.
  rewrite lookup_assign, kindEqb_refl, assign_assign. reflexivity.
Qed.

Lemma call_step (c : Call) (w : World) : call c w = step c w.
Proof.
  destruct c; cbn [call step].
  - unfold min, validateLength, DEFAULT_MIN, getMaxLengthRule.
    unfold bind at 1. destruct (v <? 0); [reflexivity|].
    cbn. apply attach_eq.
  - unfold max, validateLength, DEFAULT_MIN, getMaxLengthRule.
    unfold bind at 1. destruct (v <? 0); [reflexivity|].
    cbn. apply attach_eq.
  - apply attach_eq.
  - apply attach_eq.
  - apply attach_eq.
  - reflexivity.
  - unfold label, validateStringInput, bind.
    destruct (String.eqb name ""); reflexivity.
  - apply attach_eq.
  - reflexivity.
  - unfold matches, validateStringInput, bind.
    destruct (String.eqb name ""); reflexivity.
Qed.

(** ** Well-formedness is kept by every builder call *)

Lemma pattern_customize (ce : option string) (r : Rule) :
  pattern (customize ce r) = pattern r.
Proof.
  unfold customize. destruct ce; [|reflexivity].
  now destruct (truthy (Some s)).
Qed.

Lemma value_customize (ce : option string) (r : Rule) :
  value (customize ce r) = value r.
Proof.
  unfold customize. destruct ce; [|reflexivity].
  now destruct (truthy (Some s)).
Qed.

Lemma lookup_In (k : RuleKind) (e : Entry) rs :
  lookup k rs = Some e -> In (k, e) rs.
Proof.
  induction rs as [|[k0 e0] rs IH]; cbn; [discriminate|].
  destruct (kindEqb k k0) eqn:E.
  - apply kindEqb_eq in E; subst k0. intro H; inversion H. now left.
  - intro H. right. now apply IH.
Qed.

Lemma has_In (k : RuleKind) (e : Entry) rs :
  In (k, e) rs -> has k rs = true.
Proof.
  unfold has. induction rs as [|[k0 e0] rs IH]; cbn; [tauto|].
  intros [H|H].
  - inversion H; subst. now rewrite kindEqb_refl.
  - destruct (kindEqb k k0); auto.
Qed.

Lemma Forall_assign (P : RuleKind * Entry -> Prop) (k : RuleKind) (e : Entry)
    rs :
  Forall P rs -> P (k, e) -> Forall P (assign k e rs).
Proof.
  intros H Hk. induction H as [|[k0 e0] rs H0 H IH]; cbn.
  - now constructor.
  - destruct (kindEqb k k0) eqn:E.
    + apply kindEqb_eq in E; subst k0. now constructor.
    + now constructor.
Qed.

Lemma wf_lookup (s : State) (k : RuleKind) (e : Entry) :
  wf s -> lookup k (s_rules s) = Some e -> entryOk k e.
Proof.
  intros H L. apply lookup_In in L.
  pose proof (wf_entries _ H) as F. rewrite Forall_forall in F.
  exact (F _ L).
Qed.

Lemma wf_new : wf newSchema.
Proof.
  split; try reflexivity.
  repeat constructor.
Qed.

Lemma wf_assign (s : State) (k : RuleKind) (r : Rule) :
  wf s -> k <> KmatchingProperty -> ruleOk k r ->
  wf (setRules (assign k (Own r) (s_rules s)) s).
Proof.
  intros [Hc He Hmin Hmax Hm] Hk Hp. split; cbn.
  - now apply keyCount_assign.
  - now apply Forall_assign.
  - rewrite has_assign, Hmin. apply orb_true_r.
  - rewrite has_assign, Hmax. apply orb_true_r.
  - rewrite has_assign, Hm.
    destruct (kindEqb KmatchingProperty k) eqn:E; [|reflexivity].
    apply kindEqb_eq in E. now elim Hk.
Qed.

Lemma truthy_customize (ce : option string) (r : Rule) :
  truthyMessage (error r) = true ->
  truthyMessage (error (customize ce r)) = true.
Proof.
  unfold customize. destruct ce as [t|]; [|auto].
  destruct (truthy (Some t)) eqn:T; auto.
Qed.

Lemma ruleOk_customize (k : RuleKind) (ce : option string) (r : Rule) :
  ruleOk k r -> ruleOk k (customize ce r).
Proof.
  intros [Ht Hp]. split; [now apply truthy_customize|].
  now rewrite pattern_customize.
Qed.

Lemma wf_attach (k : RuleKind) (r : Rule) (ce : option string) (w : World) :
  wf (schema w) -> k <> KmatchingProperty -> ruleOk k r ->
  wf (schema (attach k r ce w)).
Proof.
  intros H Hk Hp. unfold attach; cbn.
  apply wf_assign; auto. now apply ruleOk_customize.
Qed.

Ltac catalog_rule := split; [reflexivity | cbn; discriminate].

Lemma wf_override (k : RuleKind) (ce : option string) (w w' : World)
    (res : Res unit) :
  wf (schema w) -> k <> KmatchingProperty -> k <> Kminimum -> k <> Kmaximum ->
  overrideError k ce w = (w', res) ->
  wf (schema w') /\ defaults w' = defaults w.
Proof.
  intros H Hk Hk1 Hk2. unfold overrideError.
  destruct ce as [t|]; [|intro E; inversion E; subst; auto].
  destruct (truthy (Some t)) eqn:T; [|intro E; inversion E; subst; auto].
  unfold updateObject.
  destruct (lookup k (s_rules (schema w))) as [[a|r]|] eqn:L.
  - apply (wf_lookup _ _ _ H) in L. destruct a; cbn in L; congruence.
  - intro E; inversion E; subst; clear E. cbn. split; [|reflexivity].
    apply wf_assign; auto.
    apply (wf_lookup _ _ _ H) in L. destruct L as [_ Lp].
    split; [cbn; exact T | exact Lp].
  - intro E; inversion E; subst; auto.
Qed.

Lemma wf_step (c : Call) (w w' : World) (res : Res unit) :
  wf (schema w) -> step c w = (w', res) ->
  wf (schema w') /\ defaults w' = defaults w.
Proof.
  intros H. destruct c; cbn [step].
  - destruct (v <? 0); intro E; inversion E; subst; auto.
    split; [apply wf_attach; auto; (discriminate || catalog_rule) | reflexivity].
  - destruct (v <? 0); intro E; inversion E; subst; auto.
    split; [apply wf_attach; auto; (discriminate || catalog_rule) | reflexivity].
  - intro E; inversion E; subst.
    split; [apply wf_attach; auto; (discriminate || catalog_rule) | reflexivity].
  - intro E; inversion E; subst.
    split; [apply wf_attach; auto; (discriminate || catalog_rule) | reflexivity].
  - intro E; inversion E; subst.
    split; [apply wf_attach; auto; (discriminate || catalog_rule) | reflexivity].
  - intro E. apply wf_override in E; try discriminate.
    + exact E.
    + apply wf_attach; auto; (discriminate || catalog_rule).
  - destruct (String.eqb name ""); intro E; inversion E; subst; auto.
    split; [|reflexivity]. destruct H; split; assumption.
  - intro E; inversion E; subst.
    split; [apply wf_attach; auto; (discriminate || catalog_rule) | reflexivity].
  - intro E; inversion E; subst.
    split; [|reflexivity]. destruct H; split; assumption.
  - destruct (String.eqb name "") eqn:N; intro E; inversion E; subst; auto.
    split; [|reflexivity]. destruct H as [Hc He Hmin Hmax Hm]. split; cbn.
    + now apply keyCount_assign.
    + apply Forall_assign; auto.
      cbn. unfold matchRule.
      destruct customError as [t|];
        [destruct (truthy (Some t)) eqn:T|]; split; cbn; auto.
    + rewrite has_assign, Hmin. apply orb_true_r.
    + rewrite has_assign, Hmax. apply orb_true_r.
    + rewrite has_assign. cbn. now rewrite N.
Qed.

Lemma chain_wf (cs : list Call) (w w' : World) (res : Res unit) :
  wf (schema w) -> chain cs w = (w', res) ->
  wf (schema w') /\ defaults w' = defaults w.
Proof.
  revert w. induction cs as [|c cs IH]; intros w H; cbn.
  - intro E; inversion E; subst; auto.
  - unfold bind. rewrite call_step.
    destruct (step c w) as [w1 [[]|e]] eqn:S;
      destruct (wf_step _ _ _ _ H S) as [H1 D1].
    + intro E. destruct (IH _ H1 E) as [H2 D2]. split; congruence.
    + intro E; inversion E; subst; auto.
Qed.

Lemma built_wf (cs : list Call) (d : Defaults) (w : World) :
  built cs d w -> wf (schema w) /\ defaults w = d.
Proof.
  intro B. apply chain_wf in B; [exact B | exact wf_new].
Qed.

Lemma chain_app (cs cs' : list Call) (w : World) :
  chain (cs ++ cs') w = (chain cs ;;; chain cs') w.
Proof.
  revert w. induction cs as [|c cs IH]; intro w; cbn.
  - reflexivity.
  - unfold bind in *. destruct (call c w) as [w1 [[]|e]]; [apply IH | reflexivity].
Qed.

(** A chain that ends with [c]: the calls before it succeeded. *)
Lemma built_snoc (cs : list Call) (c : Call) (d : Defaults) (w : World) :
  built (cs ++ [c]) d w ->
  exists w1, built cs d w1 /\ step c w1 = (w, Ok tt).
Proof.
  unfold built. rewrite chain_app. unfold bind.
  destruct (chain cs (mkWorld d newSchema)) as [w1 [[]|e]] eqn:C.
  - cbn. unfold bind. rewrite call_step.
    destruct (step c w1) as [w2 [[]|e]] eqn:S.
    + intro E; inversion E; subst. now exists w1.
    + discriminate.
  - discriminate.
Qed.

(** ** [lib/uppercase.js] *)

Lemma between_spec (lo hi : nat) (c : ascii) :
  between lo hi c = true <-> (lo <= nat_of_ascii c <= hi)%nat.
Proof.
  unfold between. rewrite andb_true_iff, !Nat.leb_le. reflexivity.
Qed.

Lemma pattern_containsUppercase (v : string) :
  Uppercase.pattern v = true <-> Uppercase.containsUppercase v.
Proof.
  unfold Uppercase.pattern, Uppercase.containsUppercase.
  rewrite existsb_exists.
  split; intros [c [Hin Hc]]; exists c; split; auto; now apply between_spec.
Qed.

(** C10: the validator made by the default export of [lib/uppercase.js]
    (the factory named [lowercase]) returns the boolean [true] when the value
    has a character in A-Z and returns the error message itself, a string,
    when it has none; it is a total function, so it never throws. *)
Theorem uppercase_validator_result (m v : string) :
  (Uppercase.containsUppercase v ->
   Uppercase.lowercase m v = Uppercase.JsBool true) /\
  (~ Uppercase.containsUppercase v ->
   Uppercase.lowercase m v = Uppercase.JsString m).
Proof.
  unfold Uppercase.lowercase.
  destruct (Uppercase.pattern v) eqn:P; split; intro H; try reflexivity.
  - elim H. now apply pattern_containsUppercase.
  - apply pattern_containsUppercase in H. congruence.
Qed.

Lemma uppercase_validator_result_witness :
  Uppercase.lowercase "Needs an uppercase letter" "passWord"
    = Uppercase.JsBool true /\
  Uppercase.lowercase "Needs an uppercase letter" "password"
    = Uppercase.JsString "Needs an uppercase letter".
Proof.
  split.
  - apply (proj1 (uppercase_validator_result
                    "Needs an uppercase letter" "passWord")).
    exists "W"%char. split; [cbn; tauto | cbn; lia].
  - apply (proj2 (uppercase_validator_result
                    "Needs an uppercase letter" "password")).
    intros [c [Hin Hc]]. cbn in Hin.
    repeat (destruct Hin as [<-|Hin]; [cbn in Hc; lia|]). exact Hin.
Defined.

(** ** The setters and getters of the length bounds *)

Lemma min_eq (n : Z) (ce : option string) (w : World) :
  0 <= n -> min n ce w = (attach Kminimum (maxLengthRule n) ce w, Ok tt).
Proof.
  intro H. change (min n ce w) with (call (Min n ce) w).
  rewrite call_step; cbn [step].
  destruct (n <? 0) eqn:E; [lia | reflexivity].
Qed.

Lemma max_eq (n : Z) (ce : option string) (w : World) :
  0 <= n -> max n ce w = (attach Kmaximum (maxLengthRule n) ce w, Ok tt).
Proof.
  intro H. change (max n ce w) with (call (Max n ce) w).
  rewrite call_step; cbn [step].
  destruct (n <? 0) eqn:E; [lia | reflexivity].
Qed.

Lemma readValue_attach (k : RuleKind) (r : Rule) (ce : option string)
    (w : World) :
  snd (readValue k (attach k r ce w)) = Ok (value r).
Proof.
  unfold readValue, attach; cbn.
  rewrite lookup_assign, kindEqb_refl; cbn.
  now rewrite value_customize.
Qed.

(** C5 (the code departs from the claim): [min(n)] and [max(n)] store
    nothing but a copy of the descriptor of [getMaxLengthRule(n)], which has
    a pattern and a message and no [value]; for every bound [n >= 0],
    whatever the builder state and the optional custom message, [min(n)]
    and [max(n)] succeed and the [minimum] and [maximum] getters then
    return [undefined], not [n]. *)
Theorem setters_store_no_value (n : N) (ce : option string) (w : World) :
  (exists w', min (Z.of_N n) ce w = (w', Ok tt) /\ minimum w' = Ok None) /\
  (exists w', max (Z.of_N n) ce w = (w', Ok tt) /\ maximum w' = Ok None).
Proof.
  split.
  - exists (attach Kminimum (maxLengthRule (Z.of_N n)) ce w).
    split; [apply min_eq; lia | apply readValue_attach].
  - exists (attach Kmaximum (maxLengthRule (Z.of_N n)) ce w).
    split; [apply max_eq; lia | apply readValue_attach].
Qed.

(** C1 (the code departs from the claim): [min(n)] stores a copy of
    [getMaxLengthRule(n)] under [minimum], whose pattern tests
    "length <= n"; the schema [min(5).max(7).hasDigit().hasSymbol()]
    therefore compiles to two maximum-length rules and the length-4 input
    "ab1$" is reported valid, with no message at all. *)
Theorem min_installs_max_length_rule (d : Defaults) :
  (forall (n : N) (ce : option string),
     lookup Kminimum
       (s_rules (schema (fst (min (Z.of_N n) ce (mkWorld d newSchema)))))
     = Some (Own (customize ce (maxLengthRule (Z.of_N n))))) /\
  exists w,
    built [Min 5 None; Max 7 None; HasDigit None; HasSymbol None] d w /\
    snd (validateSchema w)
    = Ok {| c_label := None; c_required := None; c_matchingProperty := None;
            c_rules := [Some (mkRule None (Some (MaxLengthP 5)) (MsgMaxLength 5));
                        Some (mkRule None (Some (MaxLengthP 7)) (MsgMaxLength 7));
                        Some DIGIT; Some SYMBOL] |} /\
    snd (validate "ab1$" None w) = Ok (mkResult true []).
Proof.
  split.
  - intros n ce. rewrite min_eq by lia. cbn.
    destruct ce; reflexivity.
  - eexists. split; [reflexivity|]. split; reflexivity.
Qed.

(** ** [hasLowercase] *)

(** C4 (the code departs from the claim): with a non-empty custom error [e],
    [hasLowercase(e)] attaches the lowercase rule with its default message
    and writes [e] into the uppercase rule's message; when no uppercase
    rule is attached the write is a [TypeError]. *)
Theorem hasLowercase_overrides_uppercase (d : Defaults) (c : ascii)
    (t : string) :
  let e := String c t in
  (exists w,
     built [HasUppercase None; HasLowercase (Some e)] d w /\
     lookup Klowercase (s_rules (schema w)) = Some (Own LOWERCASE) /\
     lookup Kuppercase (s_rules (schema w))
     = Some (Own (mkRule None (Some UppercaseP) (Custom e)))) /\
  snd (chain [HasLowercase (Some e)] (mkWorld d newSchema)) = Throw TypeError.
Proof.
  cbn zeta. split.
  - eexists. split; [reflexivity|]. split; reflexivity.
  - reflexivity.
Qed.

(** ** What a builder call leaves alone *)

Lemma overrideError_frame (k : RuleKind) (ce : option string) (w w' : World)
    (res : Res unit) :
  overrideError k ce w = (w', res) ->
  s_label (schema w') = s_label (schema w) /\
  s_required (schema w') = s_required (schema w) /\
  s_matchingProperty (schema w') = s_matchingProperty (schema w) /\
  forall k0, kindEqb k0 k = false ->
             lookup k0 (s_rules (schema w')) = lookup k0 (s_rules (schema w)).
Proof.
  unfold overrideError.
  destruct ce as [t|]; [|intro E; inversion E; subst; auto].
  destruct (truthy (Some t)); [|intro E; inversion E; subst; auto].
  unfold updateObject.
  destruct (lookup k (s_rules (schema w))) as [[[]|r]|];
    intro E; inversion E; subst; cbn; auto.
  repeat split; auto. intros k0 K. now rewrite lookup_assign, K.
Qed.

Lemma step_frame (c : Call) (w w' : World) (res : Res unit) :
  step c w = (w', res) ->
  (isLabel c = false -> s_label (schema w') = s_label (schema w)) /\
  (isIsRequired c = false ->
   s_required (schema w') = s_required (schema w)) /\
  (isMatches c = false ->
   s_matchingProperty (schema w') = s_matchingProperty (schema w)) /\
  (forall k, writes c k = false ->
             lookup k (s_rules (schema w')) = lookup k (s_rules (schema w))).
Proof.
  assert (A : forall k r ce k0, kindEqb k0 k = false ->
            lookup k0 (s_rules (schema (attach k r ce w)))
            = lookup k0 (s_rules (schema w))).
  { intros k r ce k0 K. unfold attach; cbn. now rewrite lookup_assign, K. }
  destruct c; cbn [step];
    try (destruct (v <? 0));
    try (destruct (String.eqb name ""));
    try (intro E; inversion E; subst; clear E; cbn;
         repeat split; auto; try discriminate;
         intros k K; unfold writes in K; cbn in K;
         rewrite ?orb_false_r in K;
         (apply A; exact K) || (now rewrite lookup_assign, K)).
  intro E. apply overrideError_frame in E.
  destruct E as (El & Er & Em & Ek). cbn in El, Er, Em.
  repeat split; auto.
  intros k K. unfold writes in K; cbn in K.
  apply orb_false_iff in K as [K1 K2].
  rewrite Ek by exact K2. now apply A.
Qed.

Lemma In_snoc_other (cs : list Call) (x c : Call) :
  In c (cs ++ [x]) -> c <> x -> In c cs.
Proof.
  intros H N. apply in_app_or in H as [H|[H|[]]]; [exact H | congruence].
Qed.

(** ** What a chain of calls establishes *)

Lemma built_no_matches (cs : list Call) (d : Defaults) (w : World) :
  built cs d w -> (forall c, In c cs -> isMatches c = false) ->
  s_matchingProperty (schema w) = None.
Proof.
  revert w. induction cs as [|x cs IH] using rev_ind; intros w B H.
  - inversion B; reflexivity.
  - apply built_snoc in B as [w1 [B1 S]].
    destruct (step_frame _ _ _ _ S) as (_ & _ & Fm & _).
    rewrite Fm.
    + apply IH; auto. intros c Hc. apply H, in_or_app. now left.
    + apply H, in_or_app. right. now left.
Qed.

Lemma built_matches (cs : list Call) (d : Defaults) (w : World)
    (name0 : string) (ce0 : option string) :
  built cs d w -> In (Matches name0 ce0) cs ->
  exists name ce,
    In (Matches name ce) cs /\ truthy (Some name) = true /\
    s_matchingProperty (schema w) = Some name /\
    lookup KmatchingProperty (s_rules (schema w))
    = Some (Own (matchRule name ce)).
Proof.
  revert w. induction cs as [|x cs IH] using rev_ind; intros w B H.
  - inversion H.
  - apply built_snoc in B as [w1 [B1 S]].
    destruct (isMatches x) eqn:X.
    + destruct x; try discriminate. cbn [step] in S.
      destruct (String.eqb name "") eqn:N; inversion S; subst; clear S.
      exists name, customError.
      split; [apply in_or_app; right; now left|].
      split; [cbn; now rewrite N|].
      split; [reflexivity|]. cbn. now rewrite lookup_assign.
    + assert (Hin : In (Matches name0 ce0) cs).
      { apply In_snoc_other in H; auto. intros <-. discriminate. }
      destruct (IH _ B1 Hin) as (name & ce & Hc & Ht & Hm & Hl).
      destruct (step_frame _ _ _ _ S) as (_ & _ & Fm & Fk).
      exists name, ce. rewrite Fm, Fk; auto.
      * repeat split; auto. apply in_or_app. now left.
      * destruct x; try reflexivity; discriminate.
Qed.

Lemma built_email (cs : list Call) (d : Defaults) (w : World)
    (ce0 : option string) :
  built cs d w -> In (IsEmail ce0) cs ->
  exists ce,
    In (IsEmail ce) cs /\
    lookup Kemail (s_rules (schema w)) = Some (Own (customize ce EMAIL)).
Proof.
  revert w. induction cs as [|x cs IH] using rev_ind; intros w B H.
  - inversion H.
  - apply built_snoc in B as [w1 [B1 S]].
    destruct (isIsEmail x) eqn:X.
    + destruct x; try discriminate. cbn [step] in S.
      inversion S; subst; clear S.
      exists customError. split; [apply in_or_app; right; now left|].
      unfold attach; cbn. now rewrite lookup_assign.
    + assert (Hin : In (IsEmail ce0) cs).
      { apply In_snoc_other in H; auto. intros <-. discriminate. }
      destruct (IH _ B1 Hin) as (ce & Hc & Hl).
      destruct (step_frame _ _ _ _ S) as (_ & _ & _ & Fk).
      exists ce. rewrite Fk; auto.
      * split; auto. apply in_or_app. now left.
      * destruct x; try reflexivity; discriminate.
Qed.

Lemma built_required (cs : list Call) (d : Defaults) (w : World)
    (ce0 : option string) :
  built cs d w -> In (IsRequired ce0) cs ->
  exists ce,
    In (IsRequired ce) cs /\
    s_required (schema w) = Some (requiredMessage ce).
Proof.
  revert w. induction cs as [|x cs IH] using rev_ind; intros w B H.
  - inversion H.
  - apply built_snoc in B as [w1 [B1 S]].
    destruct (isIsRequired x) eqn:X.
    + destruct x; try discriminate. cbn [step] in S.
      inversion S; subst; clear S.
      exists customError. split; [apply in_or_app; right; now left|].
      reflexivity.
    + assert (Hin : In (IsRequired ce0) cs).
      { apply In_snoc_other in H; auto. intros <-. discriminate. }
      destruct (IH _ B1 Hin) as (ce & Hc & Hl).
      destruct (step_frame _ _ _ _ S) as (_ & Fr & _ & _).
      exists ce. rewrite Fr; auto.
      split; auto. apply in_or_app. now left.
Qed.

(** ** Compilation *)

Lemma requiredChars_classCount (w : World) :
  wf (schema w) -> truthy (s_matchingProperty (schema w)) = false ->
  lookup Kemail (s_rules (schema w)) = None ->
  Z.of_nat (length (s_rules (schema w))) - Z.of_nat (length DEFAULT_KEYS)
  = classCount w.
Proof.
  intros [Hc _ Hmin Hmax Hm] T E. rewrite Hc.
  unfold keyCount, classCount, digit, symbol, uppercase, lowercase, present.
  rewrite Hmin, Hmax, Hm, T. unfold has. rewrite E.
  unfold DEFAULT_KEYS. cbn [length Z.b2z Z.of_nat Pos.of_succ_nat Pos.succ]. lia.
Qed.

Lemma classCount_nonneg w : 0 <= classCount w.
Proof. unfold classCount. destruct (digit w), (symbol w), (uppercase w), (lowercase w); cbn; lia. Qed.


Lemma readValue_object k w :
  readValue k w = (w, match object k w with Some r => Ok (value r) | None => Throw TypeError end).
Proof.
  unfold readValue, object. now destruct (lookup k (s_rules (schema w))).
Qed.

Lemma map_fst_assign k e rs :
  has k rs = true -> map fst (assign k e rs) = map fst rs.
Proof.
  unfold has. induction rs as [|[k0 e0] rs IH]; cbn; [discriminate|].
  destruct (kindEqb k k0) eqn:E; cbn; [reflexivity|].
  intro H. now rewrite IH.
Qed.

Lemma has_keys k rs rs' : map fst rs = map fst rs' -> has k rs = has k rs'.
Proof.
  unfold has. revert rs'.
  induction rs as [|[k0 e0] rs IH]; intros [|[k1 e1] rs']; cbn;
    intro H; inversion H; subst; [reflexivity|].
  destruct (kindEqb k k1); [reflexivity|]. now apply IH.
Qed.

Lemma updateObject_wf (k : RuleKind) (f : Rule -> Rule) (w : World) :
  wf (schema w) -> k <> KmatchingProperty ->
  has k (s_rules (schema w)) = true ->
  (forall r, ruleOk k r -> ruleOk k (f r)) ->
  exists w1,
    updateObject k f w = (w1, Ok tt) /\
    wf (schema w1) /\ (storeOk (defaults w) -> storeOk (defaults w1)) /\
    object k w1 = option_map f (object k w) /\
    (forall k', k' <> k -> object k' w1 = object k' w) /\
    map fst (s_rules (schema w1)) = map fst (s_rules (schema w)) /\
    s_label (schema w1) = s_label (schema w) /\
    s_required (schema w1) = s_required (schema w) /\
    s_matchingProperty (schema w1) = s_matchingProperty (schema w).
Proof.
  intros W Hk Hh Hf. unfold updateObject, object.
  unfold has in Hh.
  destruct (lookup k (s_rules (schema w))) as [e|] eqn:L; [|discriminate].
  pose proof (wf_lookup _ _ _ W L) as Oe.
  destruct e as [[]|r]; cbn in Oe; subst; eexists; (split; [reflexivity|]); cbn.
  - rewrite L. split; [exact W|].
    split; [intros [Smin Smax]; split; cbn; [apply Hf; exact Smin | exact Smax]|].
    split; [reflexivity|]. split; [|auto].
    intros k' Hk'. destruct (lookup k' (s_rules (schema w))) as [e'|] eqn:L'; auto.
    pose proof (wf_lookup _ _ _ W L') as Oe'.
    destruct e' as [[]|r']; cbn in *; congruence.
  - rewrite L. split; [exact W|].
    split; [intros [Smin Smax]; split; cbn; [exact Smin | apply Hf; exact Smax]|].
    split; [reflexivity|]. split; [|auto].
    intros k' Hk'. destruct (lookup k' (s_rules (schema w))) as [e'|] eqn:L'; auto.
    pose proof (wf_lookup _ _ _ W L') as Oe'.
    destruct e' as [[]|r']; cbn in *; congruence.
  - split; [apply wf_assign; auto|].
    split; [auto|].
    rewrite lookup_assign, kindEqb_refl. split; [reflexivity|].
    split.
    + intros k' Hk'. rewrite lookup_assign.
      destruct (kindEqb k' k) eqn:E; [apply kindEqb_eq in E; congruence | reflexivity].
    + split; auto. apply map_fst_assign. unfold has. now rewrite L.
Qed.

Lemma bind_assoc {S A B C} (m : M S A) (f : A -> M S B) (g : B -> M S C) (s : S) :
  bind (bind m f) g s = bind m (fun x => bind (f x) g) s.
Proof.
  unfold bind. destruct (m s) as [s1 [a|e]]; reflexivity.
Qed.

Lemma validateSchema_matching (w : World) :
  truthy (s_matchingProperty (schema w)) = true ->
  validateSchema w =
    (w, Ok {| c_label := s_label (schema w);
              c_required := s_required (schema w);
              c_matchingProperty := s_matchingProperty (schema w);
              c_rules := [object KmatchingProperty w] |}).
Proof.
  intro T. unfold validateSchema, bind, get. rewrite T. reflexivity.
Qed.

Lemma validateSchema_email (w : World) (e : Entry) :
  truthy (s_matchingProperty (schema w)) = false ->
  lookup Kemail (s_rules (schema w)) = Some e ->
  validateSchema w =
    (w, Ok {| c_label := s_label (schema w);
              c_required := s_required (schema w);
              c_matchingProperty := None;
              c_rules := [Some (deref (defaults w) e)] |}).
Proof.
  intros T E. unfold validateSchema, bind, get. rewrite T, E. reflexivity.
Qed.

Lemma validateSchema_bounds (w : World) :
  truthy (s_matchingProperty (schema w)) = false ->
  lookup Kemail (s_rules (schema w)) = None ->
  validateSchema w =
    (resolveMinimum (Z.of_nat (length (s_rules (schema w))) - Z.of_nat (length DEFAULT_KEYS)) ;;;
     checkBounds (Z.of_nat (length (s_rules (schema w))) - Z.of_nat (length DEFAULT_KEYS))) w.
Proof.
  intros T E. unfold resolveMinimum. rewrite bind_assoc.
  unfold validateSchema. unfold bind at 1. unfold get. cbv beta iota zeta.
  rewrite T, E. reflexivity.
Qed.

Lemma ruleOk_minLengthRule (n : Z) : ruleOk Kminimum (minLengthRule n).
Proof. split; [reflexivity | discriminate]. Qed.

Lemma ruleOk_deleteValue (k : RuleKind) (r : Rule) :
  ruleOk k r -> ruleOk k (deleteValue r).
Proof. intros [H1 H2]. split; assumption. Qed.

Lemma has_object (k : RuleKind) (w : World) (r : Rule) :
  object k w = Some r -> has k (s_rules (schema w)) = true.
Proof.
  unfold object, has. now destruct (lookup k (s_rules (schema w))).
Qed.

Lemma resolveMinimum_spec (k : Z) (w : World) (r : Rule) :
  wf (schema w) -> 0 <= k -> object Kminimum w = Some r ->
  exists w1,
    resolveMinimum k w = (w1, Ok tt) /\
    wf (schema w1) /\ (storeOk (defaults w) -> storeOk (defaults w1)) /\
    object Kminimum w1 = Some (resolved k r) /\
    (forall k', k' <> Kminimum -> object k' w1 = object k' w) /\
    map fst (s_rules (schema w1)) = map fst (s_rules (schema w)) /\
    s_label (schema w1) = s_label (schema w) /\
    s_required (schema w1) = s_required (schema w) /\
    s_matchingProperty (schema w1) = s_matchingProperty (schema w).
Proof.
  intros W K O. unfold resolveMinimum, bind.
  rewrite readValue_object, O. unfold resolved.
  destruct (isDefaultMin (value r)) eqn:D.
  - unfold getMinLengthRule. destruct (k <? 0) eqn:K0; [lia|]. cbn [liftRes].
    destruct (updateObject_wf Kminimum
                (fun _ => mkRule (Some k) (pattern (minLengthRule k)) (error (minLengthRule k)))
                w W) as (w1 & U & H).
    + discriminate.
    + exact (has_object _ _ _ O).
    + intros _ _. apply ruleOk_minLengthRule.
    + exists w1. split; [exact U|]. rewrite O in H. exact H.
  - exists w. split; [reflexivity|]. split; [exact W|].
    split; [auto|]. split; [exact O|]. auto.
Qed.

Lemma checkBounds_spec (k : Z) (w : World) (r1 r2 : Rule) :
  wf (schema w) ->
  object Kminimum w = Some r1 -> object Kmaximum w = Some r2 ->
  exists w2,
    checkBounds k w =
      (w2,
       if jsGt (value r1) (value r2) then Throw (Error INVALID_MIN_OVER_MAX)
       else if (jsLt (value r2) k || jsLt (value r1) k)%bool
       then Throw (Error INVALID_MIN_MAX)
       else Ok {| c_label := s_label (schema w);
                  c_required := s_required (schema w);
                  c_matchingProperty := s_matchingProperty (schema w);
                  c_rules := values (defaults w2) (s_rules (schema w2)) |}) /\
    wf (schema w2) /\ (storeOk (defaults w) -> storeOk (defaults w2)) /\
    (object Kminimum w2 = Some r1 \/ object Kminimum w2 = Some (deleteValue r1)) /\
    has KmatchingProperty (s_rules (schema w2)) = has KmatchingProperty (s_rules (schema w)).
Proof.
  intros W O1 O2. unfold checkBounds, bind.
  rewrite readValue_object, O1, readValue_object, O2.
  destruct (jsGt (value r1) (value r2)).
  { exists w. split; [reflexivity|]. split; [exact W|]. auto. }
  destruct (jsLt (value r2) k || jsLt (value r1) k)%bool.
  { exists w. split; [reflexivity|]. split; [exact W|]. auto. }
  destruct (updateObject_wf Kminimum deleteValue w W)
    as (w1 & U1 & W1 & S1 & Omin1 & Fr1 & Ks1 & L1 & R1 & M1).
  { discriminate. }
  { exact (has_object _ _ _ O1). }
  { intros r. apply ruleOk_deleteValue. }
  rewrite U1.
  assert (O2' : object Kmaximum w1 = Some r2).
  { rewrite Fr1 by discriminate. exact O2. }
  destruct (updateObject_wf Kmaximum deleteValue w1 W1)
    as (w2 & U2 & W2 & S2 & Omax2 & Fr2 & Ks2 & L2 & R2 & M2).
  { discriminate. }
  { exact (has_object _ _ _ O2'). }
  { intros r. apply ruleOk_deleteValue. }
  rewrite U2. exists w2. unfold get, ret.
  rewrite L2, L1, R2, R1, M2, M1.
  split; [reflexivity|]. split; [exact W2|]. split; [auto|].
  split.
  - right. rewrite Fr2 by discriminate. rewrite Omin1, O1. reflexivity.
  - rewrite (has_keys _ _ _ Ks2). apply has_keys. exact Ks1.
Qed.

Lemma wf_object_bounds (w : World) :
  wf (schema w) ->
  exists r1 r2, object Kminimum w = Some r1 /\ object Kmaximum w = Some r2.
Proof.
  intros W. pose proof (wf_minimum _ W) as H1. pose proof (wf_maximum _ W) as H2.
  unfold has, object in *.
  destruct (lookup Kminimum (s_rules (schema w))); [|discriminate].
  destruct (lookup Kmaximum (s_rules (schema w))); [|discriminate].
  cbn. eauto.
Qed.

(** The last branch of [validateSchema] on a well-formed builder state. *)
Lemma validateSchema_checks (w : World) (r1 r2 : Rule) :
  wf (schema w) ->
  truthy (s_matchingProperty (schema w)) = false ->
  lookup Kemail (s_rules (schema w)) = None ->
  object Kminimum w = Some r1 -> object Kmaximum w = Some r2 ->
  exists w',
    validateSchema w =
      (w',
       if jsGt (value (resolved (classCount w) r1)) (value r2)
       then Throw (Error INVALID_MIN_OVER_MAX)
       else if (jsLt (value r2) (classCount w)
                || jsLt (value (resolved (classCount w) r1)) (classCount w))%bool
       then Throw (Error INVALID_MIN_MAX)
       else Ok {| c_label := s_label (schema w);
                  c_required := s_required (schema w);
                  c_matchingProperty := s_matchingProperty (schema w);
                  c_rules := values (defaults w') (s_rules (schema w')) |}) /\
    wf (schema w') /\ (storeOk (defaults w) -> storeOk (defaults w')) /\
    (exists r, object Kminimum w' = Some r /\
               pattern r = pattern (resolved (classCount w) r1) /\
               error r = error (resolved (classCount w) r1)) /\
    has KmatchingProperty (s_rules (schema w')) = false.
Proof.
  intros W T E O1 O2.
  rewrite validateSchema_bounds by assumption.
  rewrite (requiredChars_classCount w W T E).
  destruct (resolveMinimum_spec (classCount w) w r1 W (classCount_nonneg w) O1)
    as (w1 & R & W1 & S1 & Omin1 & Fr1 & Ks1 & L1 & R1 & M1).
  unfold bind at 1. rewrite R.
  assert (O2' : object Kmaximum w1 = Some r2).
  { rewrite Fr1 by discriminate. exact O2. }
  destruct (checkBounds_spec (classCount w) w1 _ r2 W1 Omin1 O2')
    as (w2 & C & W2 & S2 & Omin2 & Hm).
  exists w2. rewrite C, L1, R1, M1.
  split; [reflexivity|]. split; [exact W2|]. split; [auto|].
  split.
  - destruct Omin2 as [Omin2|Omin2]; eexists; (split; [exact Omin2|]); auto.
  - rewrite Hm, (has_keys _ _ _ Ks1), (wf_matching _ W). exact T.
Qed.

(** Compilation keeps the builder's [required] message, whichever branch
    returns. *)
Lemma validateSchema_required (w w' : World) (c : Compiled) :
  wf (schema w) -> validateSchema w = (w', Ok c) ->
  c_required c = s_required (schema w).
Proof.
  intros W V.
  destruct (truthy (s_matchingProperty (schema w))) eqn:T.
  { rewrite validateSchema_matching in V by exact T.
    inversion V; reflexivity. }
  destruct (lookup Kemail (s_rules (schema w))) as [e|] eqn:E.
  { rewrite (validateSchema_email w e T E) in V. inversion V; reflexivity. }
  destruct (wf_object_bounds w W) as (r1 & r2 & O1 & O2).
  destruct (validateSchema_checks w r1 r2 W T E O1 O2) as (w2 & V2 & _).
  rewrite V2 in V.
  destruct (jsGt _ _); [inversion V|].
  destruct (_ || _)%bool; inversion V; reflexivity.
Qed.

(** The shared defaults keep their pattern and message through any
    compilation. *)
Lemma storeOk_DEFAULT_RULES (n : N) : storeOk (DEFAULT_RULES n).
Proof. split; split; cbn; (reflexivity || discriminate). Qed.

Lemma validateSchema_storeOk (w w' : World) (res : Res Compiled) :
  wf (schema w) -> storeOk (defaults w) -> validateSchema w = (w', res) ->
  storeOk (defaults w').
Proof.
  intros W S V.
  destruct (truthy (s_matchingProperty (schema w))) eqn:T.
  { rewrite validateSchema_matching in V by exact T.
    inversion V; subst; exact S. }
  destruct (lookup Kemail (s_rules (schema w))) as [e|] eqn:E.
  { rewrite (validateSchema_email w e T E) in V. inversion V; subst; exact S. }
  destruct (wf_object_bounds w W) as (r1 & r2 & O1 & O2).
  destruct (validateSchema_checks w r1 r2 W T E O1 O2)
    as (w2 & V2 & _ & S2 & _).
  rewrite V2 in V. inversion V; subst. auto.
Qed.

(** ** Failure of compilation *)

Lemma email_false (w : World) :
  email w = false -> lookup Kemail (s_rules (schema w)) = None.
Proof.
  unfold email, present.
  now destruct (lookup Kemail (s_rules (schema w))).
Qed.

Lemma getter_object (k : RuleKind) (w : World) (v : option Z) :
  snd (readValue k w) = Ok v ->
  exists r, object k w = Some r /\ value r = v.
Proof.
  rewrite readValue_object. cbn.
  destruct (object k w) as [r|]; [|discriminate].
  intro H; inversion H. eauto.
Qed.

(** No builder call stores a [value]: the objects of the instance's own
    are copies of catalog rules, of factory descriptors or of the match
    rule, with at most their message replaced. *)
Lemma unvalued_step (c : Call) (w w' : World) (res : Res unit) :
  Forall unvalued (s_rules (schema w)) -> step c w = (w', res) ->
  Forall unvalued (s_rules (schema w')).
Proof.
  intro F.
  assert (A : forall k r ce, value r = None ->
            Forall unvalued (s_rules (schema (attach k r ce w)))).
  { intros k r ce H. unfold attach; cbn. apply Forall_assign; [exact F|].
    unfold unvalued; cbn. now rewrite value_customize. }
  destruct c; cbn [step];
    try (destruct (v <? 0)); try (destruct (String.eqb name ""));
    try (intro E; inversion E; subst; clear E; cbn [schema s_rules];
         solve [exact F | apply A; reflexivity]).
  - pose proof (A Klowercase LOWERCASE None eq_refl) as F1.
    unfold overrideError.
    destruct customError as [t|]; [|intro E; inversion E; subst; exact F1].
    destruct (truthy (Some t)); [|intro E; inversion E; subst; exact F1].
    unfold updateObject.
    destruct (lookup Kuppercase
                (s_rules (schema (attach Klowercase LOWERCASE None w))))
      as [[[]|r]|] eqn:L; intro E; inversion E; subst; clear E;
      cbn [schema s_rules setRules]; try exact F1.
    apply Forall_assign; [exact F1|].
    apply lookup_In in L. rewrite Forall_forall in F1.
    exact (F1 _ L).
  - intro E; inversion E; subst; clear E. cbn.
    apply Forall_assign; [exact F|]. unfold unvalued, matchRule; cbn.
    destruct customError as [t|];
      [destruct (truthy (Some t))|]; reflexivity.
Qed.

Lemma built_unvalued (cs : list Call) (d : Defaults) (w : World)
    (k : RuleKind) (r : Rule) :
  built cs d w -> lookup k (s_rules (schema w)) = Some (Own r) ->
  value r = None.
Proof.
  intros B L.
  assert (F : Forall unvalued (s_rules (schema w))).
  { clear L. revert w B.
    induction cs as [|x cs IH] using rev_ind; intros w B.
    - inversion B. repeat constructor.
    - apply built_snoc in B as [w1 [B1 S]].
      exact (unvalued_step _ _ _ _ (IH _ B1) S). }
  apply lookup_In in L. rewrite Forall_forall in F. exact (F _ L).
Qed.

Lemma built_min (cs : list Call) (d : Defaults) (w : World) (a : Z)
    (ce : option string) :
  built cs d w -> In (Min a ce) cs ->
  exists r, lookup Kminimum (s_rules (schema w)) = Some (Own r).
Proof.
  revert w. induction cs as [|x cs IH] using rev_ind; intros w B H.
  - inversion H.
  - apply built_snoc in B as [w1 [B1 S]].
    destruct (isMin x) eqn:X.
    + destruct x; try discriminate. cbn [step] in S.
      destruct (v <? 0); inversion S; subst; clear S.
      eexists. unfold attach; cbn. now rewrite lookup_assign.
    + assert (Hin : In (Min a ce) cs).
      { apply In_snoc_other in H; auto. intros <-. discriminate. }
      destruct (IH _ B1 Hin) as (r & Hl).
      destruct (step_frame _ _ _ _ S) as (_ & _ & _ & Fk).
      exists r. rewrite Fk; auto.
      destruct x; try reflexivity; discriminate.
Qed.

Lemma built_max (cs : list Call) (d : Defaults) (w : World) (b : Z)
    (ce : option string) :
  built cs d w -> In (Max b ce) cs ->
  exists r, lookup Kmaximum (s_rules (schema w)) = Some (Own r).
Proof.
  revert w. induction cs as [|x cs IH] using rev_ind; intros w B H.
  - inversion H.
  - apply built_snoc in B as [w1 [B1 S]].
    destruct (isMax x) eqn:X.
    + destruct x; try discriminate. cbn [step] in S.
      destruct (v <? 0); inversion S; subst; clear S.
      eexists. unfold attach; cbn. now rewrite lookup_assign.
    + assert (Hin : In (Max b ce) cs).
      { apply In_snoc_other in H; auto. intros <-. discriminate. }
      destruct (IH _ B1 Hin) as (r & Hl).
      destruct (step_frame _ _ _ _ S) as (_ & _ & _ & Fk).
      exists r. rewrite Fk; auto.
      destruct x; try reflexivity; discriminate.
Qed.

(** C2 (the code departs from the claim): the bounds that [min] and [max]
    store have no [value], so the comparisons of [validateSchema] read
    [undefined] on both sides and are false: whenever both bounds were set
    explicitly, compilation succeeds, also when the minimum exceeds the
    maximum or a bound is smaller than the number of attached
    character-class rules. *)
Theorem explicit_bounds_are_never_checked (cs : list Call) (d : Defaults)
    (w : World) (a b : Z) (ce ce' : option string) :
  built cs d w -> In (Min a ce) cs -> In (Max b ce') cs ->
  throws (snd (validateSchema w)) = false.
Proof.
  intros B Ha Hb. destruct (built_wf _ _ _ B) as [W _].
  destruct (truthy (s_matchingProperty (schema w))) eqn:T.
  { now rewrite validateSchema_matching by exact T. }
  destruct (lookup Kemail (s_rules (schema w))) as [e|] eqn:E.
  { now rewrite (validateSchema_email w e T E). }
  destruct (built_min _ _ _ _ _ B Ha) as (r1 & L1).
  destruct (built_max _ _ _ _ _ B Hb) as (r2 & L2).
  pose proof (built_unvalued _ _ _ _ _ B L1) as V1.
  pose proof (built_unvalued _ _ _ _ _ B L2) as V2.
  assert (O1 : object Kminimum w = Some r1) by (unfold object; now rewrite L1).
  assert (O2 : object Kmaximum w = Some r2) by (unfold object; now rewrite L2).
  destruct (validateSchema_checks w r1 r2 W T E O1 O2) as (w' & V & _).
  rewrite V; cbn [snd]. unfold resolved. rewrite V1. cbn [isDefaultMin].
  rewrite V1, V2. reflexivity.
Qed.

Lemma explicit_bounds_are_never_checked_witness :
  let w := fst (chain [Min 0 None; Max 5 None; HasDigit None]
                  (mkWorld (DEFAULT_RULES 255) newSchema)) in
  throws (snd (validateSchema w)) = false.
Proof.
  intro w.
  apply (explicit_bounds_are_never_checked
           [Min 0 None; Max 5 None; HasDigit None] (DEFAULT_RULES 255) w
           0 5 None None).
  - reflexivity.
  - cbn. tauto.
  - cbn. tauto.
Defined.

(** ** The exclusive rules *)

(** C6: when [matches] was called in the chain that built a schema,
    compilation returns, whatever other rules were configured, a [rules]
    array with exactly one entry, the match rule of the last [matches]
    call; the label, the required message and the matching property of the
    builder are those of the output. *)
Theorem matches_is_exclusive (cs : list Call) (d : Defaults) (w : World)
    (name0 : string) (ce0 : option string) :
  built cs d w -> In (Matches name0 ce0) cs ->
  exists name ce,
    In (Matches name ce) cs /\
    matchingProperty w = Some name /\
    validateSchema w =
      (w, Ok {| c_label := alias w;
                c_required := s_required (schema w);
                c_matchingProperty := Some name;
                c_rules := [Some (matchRule name ce)] |}).
Proof.
  intros B H.
  destruct (built_matches _ _ _ _ _ B H) as (name & ce & Hin & T & Hm & Hl).
  exists name, ce. split; [exact Hin|]. split; [exact Hm|].
  rewrite validateSchema_matching by now rewrite Hm.
  unfold object, alias. now rewrite Hl, Hm.
Qed.

Lemma matches_is_exclusive_witness :
  let cs := ([Min 5 None; HasDigit None; IsEmail None; Label "Confirm"]
             ++ Demo.confirmPassword)%list in
  let w := fst (chain cs (mkWorld (DEFAULT_RULES 255) newSchema)) in
  exists name ce,
    In (Matches name ce) cs /\
    matchingProperty w = Some name /\
    validateSchema w =
      (w, Ok {| c_label := alias w;
                c_required := s_required (schema w);
                c_matchingProperty := Some name;
                c_rules := [Some (matchRule name ce)] |}).
Proof.
  intros cs w.
  apply (matches_is_exclusive cs (DEFAULT_RULES 255) w
           "password" (Some "MUST MATCH")).
  - reflexivity.
  - cbn. tauto.
Defined.

(** C7: when [isEmail] was called in the chain that built a schema and
    [matches] was not, compilation returns a [rules] array that holds the
    email rule of the last [isEmail] call and nothing else, so no length or
    character-class rule is in the output; the label and the required
    message of the builder are those of the output. *)
Theorem email_is_exclusive (cs : list Call) (d : Defaults) (w : World)
    (ce0 : option string) :
  built cs d w -> In (IsEmail ce0) cs ->
  (forall c, In c cs -> isMatches c = false) ->
  exists ce,
    In (IsEmail ce) cs /\
    validateSchema w =
      (w, Ok {| c_label := alias w;
                c_required := s_required (schema w);
                c_matchingProperty := None;
                c_rules := [Some (customize ce EMAIL)] |}).
Proof.
  intros B H N.
  destruct (built_email _ _ _ _ B H) as (ce & Hin & Hl).
  exists ce. split; [exact Hin|].
  rewrite (validateSchema_email w (Own (customize ce EMAIL))).
  - reflexivity.
  - now rewrite (built_no_matches _ _ _ B N).
  - exact Hl.
Qed.

Lemma email_is_exclusive_witness :
  let cs := [Min 5 None; Max 7 None; HasDigit None; IsEmail None;
             Label "Mail"; IsRequired (Some "Tell us your address")] in
  let w := fst (chain cs (mkWorld (DEFAULT_RULES 255) newSchema)) in
  exists ce,
    In (IsEmail ce) cs /\
    validateSchema w =
      (w, Ok {| c_label := alias w;
                c_required := s_required (schema w);
                c_matchingProperty := None;
                c_rules := [Some (customize ce EMAIL)] |}).
Proof.
  intros cs w.
  apply (email_is_exclusive cs (DEFAULT_RULES 255) w None).
  - reflexivity.
  - cbn. tauto.
  - intros c Hc. cbn in Hc.
    repeat (destruct Hc as [<-|Hc]; [reflexivity|]). destruct Hc.
Defined.

(** ** The required short-circuit *)

Lemma truthy_requiredMessage (ce : option string) :
  truthyMessage (requiredMessage ce) = true.
Proof.
  unfold requiredMessage. destruct ce as [t|]; [|reflexivity].
  destruct (truthy (Some t)) eqn:T; [exact T | reflexivity].
Qed.

(** C3: when [isRequired] was called in the chain that built a schema and
    the schema compiles, validating the empty string fails with the required
    message of the last [isRequired] call as the only error, whatever other
    rules were configured and whichever value the matching property has. *)
Theorem required_empty_short_circuit (cs : list Call) (d : Defaults)
    (w : World) (ce0 : option string) :
  built cs d w -> In (IsRequired ce0) cs ->
  throws (snd (validateSchema w)) = false ->
  exists ce,
    In (IsRequired ce) cs /\
    forall partner,
      snd (validate "" partner w) = Ok (mkResult false [requiredMessage ce]).
Proof.
  intros B H V.
  destruct (built_wf _ _ _ B) as [W _].
  destruct (built_required _ _ _ _ B H) as (ce & Hin & Hr).
  exists ce. split; [exact Hin|]. intro partner.
  unfold validate, bind.
  destruct (validateSchema w) as [w' [c|e]] eqn:C; [|discriminate].
  pose proof (validateSchema_required _ _ _ W C) as R.
  rewrite Hr in R. unfold liftRes, evaluate; cbn [snd].
  rewrite R, truthy_requiredMessage. reflexivity.
Qed.

Lemma required_empty_short_circuit_witness :
  let w := fst (chain Demo.password (mkWorld (DEFAULT_RULES 255) newSchema)) in
  exists ce,
    In (IsRequired ce) Demo.password /\
    forall partner,
      snd (validate "" partner w) = Ok (mkResult false [requiredMessage ce]).
Proof.
  intro w.
  apply (required_empty_short_circuit Demo.password (DEFAULT_RULES 255) w None).
  - reflexivity.
  - cbn. tauto.
  - reflexivity.
Defined.

(** ** The shape of the compiled rules *)

Lemma carries_weaken (o : option Rule) :
  carriesPatternAndError o -> carriesError o.
Proof. intros (r & p & -> & _ & H). now exists r. Qed.

Lemma values_carry (d : Defaults) rs :
  Forall (fun kv => entryOk (fst kv) (snd kv)) rs ->
  storeOk d -> has KmatchingProperty rs = false ->
  Forall carriesPatternAndError (values d rs).
Proof.
  intros F [[Tmin Pmin] [Tmax Pmax]] Hm. unfold values.
  rewrite Forall_forall in *. intros o Ho.
  apply in_map_iff in Ho as ([k e] & <- & Hin). cbn.
  pose proof (F _ Hin) as Oe. cbn in Oe.
  assert (Hk : k <> KmatchingProperty).
  { intros ->. apply has_In in Hin. congruence. }
  unfold carriesPatternAndError.
  destruct e as [[]|r]; cbn in *.
  - destruct (pattern (d_minimum d)) as [p|] eqn:P; [eauto | now elim Pmin].
  - destruct (pattern (d_maximum d)) as [p|] eqn:P; [eauto | now elim Pmax].
  - destruct Oe as [Tr Pr].
    destruct (pattern r) as [p|] eqn:P; [eauto|].
    destruct k; solve [now elim Pr | now elim Hk].
Qed.

(** C9 (amended): every element of the [rules] array of a successful
    compilation is an object with a non-empty error message; it has a
    pattern as well when [matches] was never called on the builder, whereas
    the single rule compiled from a builder on which [matches] was called
    has a message and no pattern. *)
Theorem compiled_rules_shape (cs : list Call) (d : Defaults) (w w' : World)
    (c : Compiled) :
  built cs d w -> storeOk d -> validateSchema w = (w', Ok c) ->
  Forall carriesError (c_rules c) /\
  ((forall x, In x cs -> isMatches x = false) ->
   Forall carriesPatternAndError (c_rules c)) /\
  ((exists name ce, In (Matches name ce) cs) ->
   exists r, c_rules c = [Some r] /\ pattern r = None).
Proof.
  intros B S V.
  destruct (built_wf _ _ _ B) as [W D]. rewrite <- D in S.
  destruct (truthy (s_matchingProperty (schema w))) eqn:T.
  - rewrite validateSchema_matching in V by exact T.
    inversion V; subst; clear V. cbn [c_rules].
    pose proof (wf_matching _ W) as Hm. rewrite T in Hm. unfold has in Hm.
    unfold object.
    destruct (lookup KmatchingProperty (s_rules (schema w'))) as [e|] eqn:L;
      [|discriminate].
    pose proof (wf_lookup _ _ _ W L) as Oe.
    destruct e as [[]|r]; cbn in Oe; try discriminate.
    destruct Oe as [Tr Pr]. cbn.
    split; [constructor; [now exists r | constructor]|].
    split; [|intros _; now exists r].
    intro N. rewrite (built_no_matches _ _ _ B N) in T. discriminate.
  - assert (Q : Forall carriesPatternAndError (c_rules c)).
    { destruct (lookup Kemail (s_rules (schema w))) as [e|] eqn:E.
      - rewrite (validateSchema_email w e T E) in V.
        inversion V; subst; clear V. cbn [c_rules].
        pose proof (wf_lookup _ _ _ W E) as Oe.
        destruct e as [[]|r]; cbn in Oe; try discriminate.
        destruct Oe as [Tr Pr]. constructor; [|constructor].
        destruct (pattern r) as [p|] eqn:P; [|now elim Pr].
        exists r, p. auto.
      - destruct (wf_object_bounds w W) as (r1 & r2 & O1 & O2).
        destruct (validateSchema_checks w r1 r2 W T E O1 O2)
          as (w2 & V2 & W2 & S2 & _ & Hm).
        rewrite V2 in V.
        destruct (jsGt _ _); [inversion V|].
        destruct (_ || _)%bool; inversion V; subst; clear V. cbn [c_rules].
        apply values_carry; auto. exact (wf_entries _ W2). }
    split; [exact (Forall_impl _ carries_weaken Q)|].
    split; [intros _; exact Q|].
    intros (name & ce & Hin).
    destruct (built_matches _ _ _ _ _ B Hin) as (n & _ & _ & Tn & Hm & _).
    rewrite Hm, Tn in T. discriminate.
Qed.

Lemma compiled_rules_shape_witness :
  let w := fst (chain Demo.password (mkWorld (DEFAULT_RULES 255) newSchema)) in
  exists c,
    snd (validateSchema w) = Ok c /\
    Forall carriesError (c_rules c) /\
    ((forall x, In x Demo.password -> isMatches x = false) ->
     Forall carriesPatternAndError (c_rules c)) /\
    ((exists name ce, In (Matches name ce) Demo.password) ->
     exists r, c_rules c = [Some r] /\ pattern r = None).
Proof.
  intro w. eexists. split; [reflexivity|].
  apply (compiled_rules_shape Demo.password (DEFAULT_RULES 255) w
           (fst (validateSchema w))).
  - reflexivity.
  - apply storeOk_DEFAULT_RULES.
  - reflexivity.
Defined.

(** C9 as stated fails: the single rule compiled from
    [new Schema().matches("password")] has a message and no pattern. *)
Lemma match_rule_has_no_pattern :
  exists c,
    snd (validateSchema
           (fst (chain [Matches "password" None]
                   (mkWorld (DEFAULT_RULES 255) newSchema)))) = Ok c /\
    c_rules c = [Some (mkRule None None (MsgMatches "password"))] /\
    ~ Forall carriesPatternAndError (c_rules c).
Proof.
  eexists. split; [reflexivity|]. split; [reflexivity|].
  intro F. inversion F as [|o l H _]; subst.
  destruct H as (r & p & Hr & Hp & _). inversion Hr; subst. discriminate.
Qed.

(** ** The derived minimum and the shared defaults *)

(** While the shared default minimum still holds the sentinel, compiling a
    schema on which [min] was never called replaces it by the rule of
    [getMinLengthRule] at the number of attached character-class rules. *)
Lemma sentinel_minimum_is_derived (cs : list Call) (d : Defaults) (w : World) :
  built cs d w ->
  email w = false -> matchingProperty w = None ->
  minimum w = Ok (Some DEFAULT_MIN) ->
  exists r,
    object Kminimum (fst (validateSchema w)) = Some r /\
    pattern r = Some (MinLengthP (classCount w)) /\
    error r = MsgMinLength (classCount w).
Proof.
  intros B He Hm Ha.
  destruct (built_wf _ _ _ B) as [W _].
  apply email_false in He. unfold matchingProperty in Hm.
  assert (T : truthy (s_matchingProperty (schema w)) = false)
    by now rewrite Hm.
  apply getter_object in Ha as (r1 & O1 & V1).
  destruct (wf_object_bounds w W) as (r1' & r2 & O1' & O2).
  destruct (validateSchema_checks w r1 r2 W T He O1 O2)
    as (w' & V & _ & _ & (r & Or & Pr & Er) & _).
  rewrite V; cbn [fst]. exists r. unfold resolved in Pr, Er.
  rewrite V1 in Pr, Er. cbn in Pr, Er. auto.
Qed.

(** C8 (the code departs from the claim): compilation deletes [value] from
    the objects of [DEFAULT_RULES] that every instance shares.  After a
    schema with one character class was compiled, a new schema with two
    character classes, on which [min] was never called, no longer reads the
    sentinel: its minimum rule stays the one derived for the first schema,
    "length >= 1", instead of "length >= 2". *)
Theorem second_compilation_keeps_first_minimum (DEFAULT_MAX : N) :
  let w1 := fst (chain [HasDigit None]
                   (mkWorld (DEFAULT_RULES DEFAULT_MAX) newSchema)) in
  let d1 := defaults (fst (validateSchema w1)) in
  let w2 := fst (chain [HasDigit None; HasSymbol None] (mkWorld d1 newSchema)) in
  classCount w2 = 2 /\
  lookup Kminimum (s_rules (schema w2)) = Some (Ref DefaultMinimum) /\
  email w2 = false /\ matchingProperty w2 = None /\
  option_map pattern (object Kminimum (fst (validateSchema w2)))
  = Some (Some (MinLengthP 1)) /\
  option_map error (object Kminimum (fst (validateSchema w2)))
  = Some (MsgMinLength 1) /\
  match snd (validateSchema w2) with
  | Ok c =>
      hd_error (c_rules c)
      = Some (Some (mkRule None (Some (MinLengthP 1)) (MsgMinLength 1)))
  | Throw _ => DEFAULT_MAX = 0%N
  end.
Proof.
  destruct DEFAULT_MAX as [|[p|p|]]; cbv zeta; repeat split.
Qed.

(* ================================================================== *)
(** * Further properties of the code *)

Import Laws.

(** ** Arguments the builder rejects *)

(** X1: a negative bound makes [min] and [max] throw a [RangeError] before
    anything is stored: the builder state is the one before the call. *)
Theorem negative_bound_is_rejected (n : Z) (ce : option string) (w : World) :
  n < 0 ->
  min n ce w = (w, Throw (RangeError INVALID_NUMBER)) /\
  max n ce w = (w, Throw (RangeError INVALID_NUMBER)).
Proof.
  intro H.
  change (min n ce w) with (call (Min n ce) w).
  change (max n ce w) with (call (Max n ce) w).
  rewrite !call_step; cbn [step].
  destruct (n <? 0) eqn:E; [split; reflexivity | lia].
Qed.

Lemma negative_bound_is_rejected_witness :
  min (-1) None (mkWorld (DEFAULT_RULES 255) newSchema)
  = (mkWorld (DEFAULT_RULES 255) newSchema, Throw (RangeError INVALID_NUMBER)) /\
  max (-1) None (mkWorld (DEFAULT_RULES 255) newSchema)
  = (mkWorld (DEFAULT_RULES 255) newSchema, Throw (RangeError INVALID_NUMBER)).
Proof.
  apply (negative_bound_is_rejected (-1) None). lia.
Defined.


(** X2: [label] and [matches] throw on the empty string, each with the
    empty-property error that names its argument, and leave the builder
    state as it was. *)
Theorem empty_name_is_rejected (ce : option string) (w : World) :
  label "" w = (w, Throw (Error (EMPTY_PROPERTY "Label"))) /\
  matches "" ce w = (w, Throw (Error (EMPTY_PROPERTY "Matching property"))).
Proof.
  change (label "" w) with (call (Label "") w).
  change (matches "" ce w) with (call (Matches "" ce) w).
  rewrite !call_step. split; reflexivity.
Qed.

(** X3: with a non-empty name, [label] succeeds, the [alias] getter then
    returns the name and neither the rules nor the shared defaults have
    changed; [matches] succeeds, the [matchingProperty] getter then returns
    the name and the match rule, which has no pattern, is stored with the
    custom message when one is given and the default one otherwise. *)
Theorem label_and_matches_set_their_getters (name : string)
    (ce : option string) (w : World) :
  name <> "" ->
  (exists w1, label name w = (w1, Ok tt) /\ alias w1 = Some name /\
              s_rules (schema w1) = s_rules (schema w) /\
              defaults w1 = defaults w) /\
  (exists w2, matches name ce w = (w2, Ok tt) /\
              matchingProperty w2 = Some name /\
              object KmatchingProperty w2
              = Some (mkRule None None
                        (if truthy ce
                         then match ce with
                              | Some t => Custom t
                              | None => MsgMatches name
                              end
                         else MsgMatches name))).
Proof.
  change (label name w) with (call (Label name) w).
  change (matches name ce w) with (call (Matches name ce) w).
  rewrite !call_step; cbn [step].
  intro N. apply String.eqb_neq in N. rewrite N.
  split; eexists; (split; [reflexivity|]); cbn; auto.
  split; [reflexivity|]. unfold object; cbn. rewrite lookup_assign; cbn.
  unfold matchRule. destruct ce as [t|]; [|reflexivity].
  now destruct (truthy (Some t)).
Qed.

Lemma label_and_matches_set_their_getters_witness :
  let w := mkWorld (DEFAULT_RULES 255) newSchema in
  (exists w1, label "Password" w = (w1, Ok tt) /\
              alias w1 = Some "Password" /\
              s_rules (schema w1) = s_rules (schema w) /\
              defaults w1 = defaults w) /\
  (exists w2, matches "Password" (Some "MUST MATCH") w = (w2, Ok tt) /\
              matchingProperty w2 = Some "Password" /\
              object KmatchingProperty w2
              = Some (mkRule None None (Custom "MUST MATCH"))).
Proof.
  intro w.
  apply (label_and_matches_set_their_getters "Password"
           (Some "MUST MATCH") w).
  discriminate.
Defined.

Lemma present_attach (k : RuleKind) (r : Rule) (ce : option string) (w : World) :
  present k (attach k r ce w) = true.
Proof.
  unfold present, attach; cbn. now rewrite lookup_assign, kindEqb_refl.
Qed.

Lemma overrideError_present (k k0 : RuleKind) (ce : option string)
    (w : World) :
  present k0 (fst (overrideError k ce w)) = present k0 w.
Proof.
  unfold overrideError.
  destruct ce as [t|]; [|reflexivity].
  destruct (truthy (Some t)); [|reflexivity].
  unfold updateObject, present.
  destruct (lookup k (s_rules (schema w))) as [[[]|r]|] eqn:L; cbn; auto.
  rewrite lookup_assign.
  destruct (kindEqb k0 k) eqn:E; [|reflexivity].
  apply kindEqb_eq in E; subst. now rewrite L.
Qed.

(** ** The getters of the rules *)

(** X4: after [hasDigit], [hasSymbol], [hasUppercase], [hasLowercase],
    [isEmail] and [isRequired] the getter of the same name returns [true],
    whatever the custom error and the builder state, even when
    [hasLowercase] throws and even when [isRequired] is given the empty
    string. *)
Theorem setters_turn_getters_on (ce : option string) (w : World) :
  digit (fst (hasDigit ce w)) = true /\
  symbol (fst (hasSymbol ce w)) = true /\
  uppercase (fst (hasUppercase ce w)) = true /\
  lowercase (fst (hasLowercase ce w)) = true /\
  email (fst (isEmail ce w)) = true /\
  required (fst (isRequired ce w)) = true.
Proof.
  change (hasDigit ce w) with (call (HasDigit ce) w).
  change (hasSymbol ce w) with (call (HasSymbol ce) w).
  change (hasUppercase ce w) with (call (HasUppercase ce) w).
  change (hasLowercase ce w) with (call (HasLowercase ce) w).
  change (isEmail ce w) with (call (IsEmail ce) w).
  rewrite !call_step; cbn [step fst].
  unfold digit, symbol, uppercase, lowercase, email.
  rewrite overrideError_present, !present_attach.
  repeat split. unfold required; cbn. apply truthy_requiredMessage.
Qed.

Lemma has_iff_In (k : RuleKind) rs : has k rs = true <-> In k (map fst rs).
Proof.
  unfold has. induction rs as [|[k0 e0] rs IH]; cbn.
  - split; [discriminate | tauto].
  - destruct (kindEqb k k0) eqn:E.
    + apply kindEqb_eq in E. subst. tauto.
    + rewrite IH. split; [tauto|]. intros [->|H]; [|exact H].
      rewrite kindEqb_refl in E. discriminate.
Qed.

Lemma keys_assign (k : RuleKind) (e : Entry) rs :
  map fst (assign k e rs) = (map fst rs ++ (if has k rs then [] else [k]))%list.
Proof.
  unfold has. induction rs as [|[k0 e0] rs IH]; cbn; [reflexivity|].
  destruct (kindEqb k k0) eqn:E; cbn.
  - now rewrite app_nil_r.
  - now rewrite IH.
Qed.

Lemma keys_updateObject (k : RuleKind) (f : Rule -> Rule) (w : World) :
  keys (fst (updateObject k f w)) = keys w.
Proof.
  unfold updateObject, keys.
  destruct (lookup k (s_rules (schema w))) as [[[]|r]|] eqn:L; cbn; auto.
  rewrite keys_assign. unfold has. rewrite L. apply app_nil_r.
Qed.

Lemma keys_overrideError (k : RuleKind) (ce : option string) (w : World) :
  keys (fst (overrideError k ce w)) = keys w.
Proof.
  unfold overrideError.
  destruct ce as [t|]; [|reflexivity].
  destruct (truthy (Some t)); [|reflexivity].
  apply keys_updateObject.
Qed.

Lemma keys_step (c : Call) (w : World) :
  exists extra, keys (fst (step c w)) = (keys w ++ extra)%list.
Proof.
  assert (A : forall k r ce, exists extra,
             keys (attach k r ce w) = (keys w ++ extra)%list).
  { intros. unfold keys, attach; cbn. rewrite keys_assign. eauto. }
  destruct c; cbn [step];
    try (destruct (v <? 0)); try (destruct (String.eqb name ""));
    cbn [fst]; try apply A; try (exists []; now rewrite app_nil_r).
  - rewrite keys_overrideError. apply A.
  - unfold keys; cbn. rewrite keys_assign. eauto.
Qed.

Lemma keys_chain (cs : list Call) (w : World) :
  exists extra, keys (fst (chain cs w)) = (keys w ++ extra)%list.
Proof.
  revert w. induction cs as [|c cs IH]; intro w; cbn.
  - exists []. now rewrite app_nil_r.
  - unfold bind. rewrite call_step.
    destruct (keys_step c w) as [e1 H1].
    destruct (step c w) as [w1 [[]|e]]; cbn [fst] in *.
    + destruct (IH w1) as [e2 H2]. exists (e1 ++ e2)%list.
      now rewrite H2, H1, app_assoc.
    + eauto.
Qed.

(** X5: no builder call removes a rule: a property of [rules] that is
    present stays present through any chain of calls, thrown or not, so a
    getter that returned [true] keeps returning [true]. *)
Theorem rules_are_never_removed (k : RuleKind) (cs : list Call) (w : World) :
  present k w = true -> present k (fst (chain cs w)) = true.
Proof.
  unfold present.
  change (match lookup k (s_rules (schema w)) with Some _ => true | None => false end)
    with (has k (s_rules (schema w))).
  change (match lookup k (s_rules (schema (fst (chain cs w)))) with Some _ => true | None => false end)
    with (has k (s_rules (schema (fst (chain cs w))))).
  rewrite !has_iff_In. intro H.
  destruct (keys_chain cs w) as [extra E]. unfold keys in E. rewrite E.
  apply in_or_app. now left.
Qed.

Lemma rules_are_never_removed_witness :
  present Kdigit
    (fst (chain [HasLowercase (Some "lower"); Min (-1) None]
            (fst (hasDigit None (mkWorld (DEFAULT_RULES 255) newSchema)))))
  = true.
Proof.
  apply (rules_are_never_removed Kdigit
           [HasLowercase (Some "lower"); Min (-1) None]).
  reflexivity.
Defined.

(** X6: [hasLowercase] throws a [TypeError] exactly when the custom error
    is non-empty and no uppercase rule is attached, and succeeds in every
    other case. *)
Theorem hasLowercase_TypeError (ce : option string) (w : World) :
  (snd (hasLowercase ce w) = Throw TypeError <->
   truthy ce = true /\ uppercase w = false) /\
  (snd (hasLowercase ce w) = Ok tt <->
   truthy ce = false \/ uppercase w = true).
Proof.
  change (hasLowercase ce w) with (call (HasLowercase ce) w).
  rewrite call_step; cbn [step]. unfold uppercase, present, overrideError.
  destruct ce as [t|]; [|cbn; split; split; intuition discriminate].
  destruct (truthy (Some t)) eqn:T; [|cbn; split; split; intuition discriminate].
  unfold updateObject, attach; cbn [schema s_rules setRules].
  rewrite lookup_assign; cbn [kindEqb kindIndex Nat.eqb].
  destruct (lookup Kuppercase (s_rules (schema w))) as [[[]|r]|]; cbn;
    split; split; intuition discriminate.
Qed.

(** X7: no chain of builder calls on a new schema, thrown or not, changes
    the shared objects of [DEFAULT_RULES]. *)
Theorem builder_leaves_defaults (cs : list Call) (d : Defaults) :
  defaults (fst (chain cs (mkWorld d newSchema))) = d.
Proof.
  destruct (chain cs (mkWorld d newSchema)) as [w res] eqn:C.
  apply chain_wf in C; [|exact wf_new]. now destruct C.
Qed.

(** X8: calling a setter again overwrites: when two calls of the same
    setter ([hasLowercase] apart) both succeed, the first followed by the
    second leaves the builder exactly as the second alone does, the rule
    keeping its place among the properties. *)
Theorem setter_overwrites (c1 c2 : Call) (w : World) :
  sameSetter c1 c2 = true ->
  snd (call c1 w) = Ok tt -> snd (call c2 w) = Ok tt ->
  (call c1 ;;; call c2) w = call c2 w.
Proof.
  assert (A : forall k r1 r2 ce1 ce2,
            attach k r2 ce2 (attach k r1 ce1 w) = attach k r2 ce2 w).
  { intros. unfold attach; cbn. now rewrite assign_assign. }
  intros S H1 H2. unfold bind.
  rewrite (call_step c1 w) in *. rewrite (call_step c2 w) in *.
  destruct (step c1 w) as [w1 [[]|e]] eqn:C1; [|discriminate].
  rewrite (call_step c2 w1).
  destruct c1, c2; try discriminate; cbn [step] in *;
    try (destruct (v <? 0); [discriminate|]);
    try (destruct (v0 <? 0) eqn:V0; [discriminate|]);
    try (destruct (String.eqb name ""); [discriminate|]);
    try (destruct (String.eqb name0 "") eqn:N0; [discriminate|]);
    inversion C1; subst w1; rewrite ?A; try reflexivity.
  cbn. now rewrite assign_assign.
Qed.

Lemma setter_overwrites_witness :
  let w := mkWorld (DEFAULT_RULES 255) newSchema in
  (call (Min 3 (Some "short")) ;;; call (Min 5 None)) w = call (Min 5 None) w.
Proof.
  intro w.
  apply (setter_overwrites (Min 3 (Some "short")) (Min 5 None) w);
    reflexivity.
Defined.

(** ** Compiling twice *)

Lemma assign_lookup_id (k : RuleKind) (e : Entry) rs :
  lookup k rs = Some e -> assign k e rs = rs.
Proof.
  induction rs as [|[k0 e0] rs IH]; cbn; [discriminate|].
  destruct (kindEqb k k0) eqn:E.
  - intro H; inversion H. reflexivity.
  - intro H. now rewrite IH.
Qed.

Lemma updateObject_same (k : RuleKind) (f : Rule -> Rule) (w : World)
    (r : Rule) :
  object k w = Some r -> f r = r -> updateObject k f w = (w, Ok tt).
Proof.
  unfold object, updateObject. destruct w as [[dmin dmax] [rs l rq mp]]; cbn.
  destruct (lookup k rs) as [[[]|r0]|] eqn:L; cbn; intro H; inversion H; subst;
    intro F; rewrite F; [reflexivity | reflexivity |].
  unfold setRules; cbn. now rewrite (assign_lookup_id _ _ _ L).
Qed.

Lemma object_none (k : RuleKind) (w : World) :
  object k w = None <-> lookup k (s_rules (schema w)) = None.
Proof.
  unfold object. destruct (lookup k (s_rules (schema w))); cbn; split;
    congruence.
Qed.

Lemma present_keys (k : RuleKind) (w w' : World) :
  keys w' = keys w -> present k w' = present k w.
Proof.
  intro H. unfold present.
  change (has k (s_rules (schema w')) = has k (s_rules (schema w))).
  now apply has_keys.
Qed.

Lemma classCount_keys (w w' : World) :
  keys w' = keys w -> classCount w' = classCount w.
Proof.
  intro H. unfold classCount, digit, symbol, uppercase, lowercase.
  now rewrite !(present_keys _ _ _ H).
Qed.

Lemma deleteValue_id (r : Rule) : value r = None -> deleteValue r = r.
Proof. destruct r; cbn; intros ->; reflexivity. Qed.

Lemma resolved_fixed (k : Z) (r : Rule) :
  resolved k (resolved k r) = resolved k r.
Proof.
  unfold resolved. destruct (isDefaultMin (value r)) eqn:D; [|now rewrite D].
  cbn [value]. now destruct (isDefaultMin (Some k)).
Qed.

Lemma resolveMinimum_fixed (k : Z) (w : World) (r : Rule) :
  0 <= k -> object Kminimum w = Some r -> resolved k r = r ->
  resolveMinimum k w = (w, Ok tt).
Proof.
  intros K O R. unfold resolveMinimum, bind.
  rewrite readValue_object, O. unfold resolved in R.
  destruct (isDefaultMin (value r)); [|reflexivity].
  unfold getMinLengthRule. destruct (k <? 0) eqn:K0; [lia|]. cbn [liftRes].
  apply (updateObject_same _ _ _ r O). exact R.
Qed.

Lemma checkBounds_full (k : Z) (w : World) (r1 r2 : Rule) :
  wf (schema w) ->
  object Kminimum w = Some r1 -> object Kmaximum w = Some r2 ->
  match boundsError k r1 r2 with
  | Some e => checkBounds k w = (w, Throw e)
  | None =>
      exists w2,
        checkBounds k w =
          (w2, Ok {| c_label := s_label (schema w);
                     c_required := s_required (schema w);
                     c_matchingProperty := s_matchingProperty (schema w);
                     c_rules := values (defaults w2) (s_rules (schema w2)) |}) /\
        wf (schema w2) /\
        object Kminimum w2 = Some (deleteValue r1) /\
        object Kmaximum w2 = Some (deleteValue r2) /\
        (forall k', k' <> Kminimum -> k' <> Kmaximum ->
                    object k' w2 = object k' w) /\
        keys w2 = keys w /\
        s_label (schema w2) = s_label (schema w) /\
        s_required (schema w2) = s_required (schema w) /\
        s_matchingProperty (schema w2) = s_matchingProperty (schema w)
  end.
Proof.
  intros W O1 O2. unfold boundsError, checkBounds, bind.
  rewrite readValue_object, O1, readValue_object, O2.
  destruct (jsGt (value r1) (value r2)); [reflexivity|].
  destruct (jsLt (value r2) k || jsLt (value r1) k)%bool; [reflexivity|].
  destruct (updateObject_wf Kminimum deleteValue w W)
    as (w1 & U1 & W1 & S1 & Omin1 & Fr1 & Ks1 & L1 & R1 & M1).
  { discriminate. }
  { exact (has_object _ _ _ O1). }
  { intros r. apply ruleOk_deleteValue. }
  rewrite U1.
  assert (O2' : object Kmaximum w1 = Some r2).
  { rewrite Fr1 by discriminate. exact O2. }
  destruct (updateObject_wf Kmaximum deleteValue w1 W1)
    as (w2 & U2 & W2 & S2 & Omax2 & Fr2 & Ks2 & L2 & R2 & M2).
  { discriminate. }
  { exact (has_object _ _ _ O2'). }
  { intros r. apply ruleOk_deleteValue. }
  rewrite U2. exists w2. unfold get, ret.
  rewrite L2, L1, R2, R1, M2, M1.
  split; [reflexivity|]. split; [exact W2|].
  split; [rewrite Fr2 by discriminate; now rewrite Omin1, O1|].
  split; [now rewrite Omax2, O2'|].
  split; [intros k' N1 N2; rewrite Fr2, Fr1; auto|].
  split; [unfold keys; congruence|]. auto.
Qed.

Lemma checkBounds_deleted (k : Z) (w : World) (r1 r2 : Rule) :
  object Kminimum w = Some r1 -> object Kmaximum w = Some r2 ->
  value r1 = None -> value r2 = None ->
  checkBounds k w =
    (w, Ok {| c_label := s_label (schema w);
              c_required := s_required (schema w);
              c_matchingProperty := s_matchingProperty (schema w);
              c_rules := values (defaults w) (s_rules (schema w)) |}).
Proof.
  intros O1 O2 V1 V2. unfold checkBounds, bind.
  rewrite readValue_object, O1, readValue_object, O2, V1, V2. cbn [jsGt jsLt orb].
  rewrite (updateObject_same _ _ _ r1 O1 (deleteValue_id _ V1)).
  rewrite (updateObject_same _ _ _ r2 O2 (deleteValue_id _ V2)).
  reflexivity.
Qed.

(** The last branch, split at the world between its two halves. *)
Lemma validateSchema_split (w : World) (r1 r2 : Rule) :
  wf (schema w) ->
  truthy (s_matchingProperty (schema w)) = false ->
  lookup Kemail (s_rules (schema w)) = None ->
  object Kminimum w = Some r1 -> object Kmaximum w = Some r2 ->
  exists w1,
    validateSchema w = checkBounds (classCount w) w1 /\
    wf (schema w1) /\
    object Kminimum w1 = Some (resolved (classCount w) r1) /\
    object Kmaximum w1 = Some r2 /\
    (forall k', k' <> Kminimum -> object k' w1 = object k' w) /\
    keys w1 = keys w /\
    s_label (schema w1) = s_label (schema w) /\
    s_required (schema w1) = s_required (schema w) /\
    s_matchingProperty (schema w1) = s_matchingProperty (schema w).
Proof.
  intros W T E O1 O2.
  rewrite validateSchema_bounds by assumption.
  rewrite (requiredChars_classCount w W T E).
  destruct (resolveMinimum_spec (classCount w) w r1 W (classCount_nonneg w) O1)
    as (w1 & R & W1 & S1 & Omin1 & Fr1 & Ks1 & L1 & R1 & M1).
  exists w1. unfold bind at 1. rewrite R.
  split; [reflexivity|]. split; [exact W1|]. split; [exact Omin1|].
  split; [rewrite Fr1 by discriminate; exact O2|].
  split; [exact Fr1|]. auto.
Qed.

(** X9: compiling the same instance again, with no builder call in between,
    returns the same result, be it the compiled schema or the error thrown,
    and leaves the state as the first compilation left it. *)
Theorem compilation_is_idempotent (cs : list Call) (d : Defaults)
    (w w' : World) (res : Res Compiled) :
  built cs d w -> validateSchema w = (w', res) ->
  validateSchema w' = (w', res).
Proof.
  intros B V. destruct (built_wf _ _ _ B) as [W _].
  destruct (truthy (s_matchingProperty (schema w))) eqn:T.
  { rewrite validateSchema_matching in V by exact T.
    inversion V; subst. now apply validateSchema_matching. }
  destruct (lookup Kemail (s_rules (schema w))) as [e|] eqn:E.
  { rewrite (validateSchema_email w e T E) in V. inversion V; subst.
    now apply validateSchema_email. }
  destruct (wf_object_bounds w W) as (r1 & r2 & O1 & O2).
  destruct (validateSchema_split w r1 r2 W T E O1 O2)
    as (w1 & V1 & W1 & Omin1 & Omax1 & Fr1 & Ks1 & L1 & R1 & M1).
  rewrite V1 in V.
  assert (T1 : truthy (s_matchingProperty (schema w1)) = false)
    by now rewrite M1.
  assert (E1 : lookup Kemail (s_rules (schema w1)) = None).
  { apply object_none. rewrite Fr1 by discriminate. now apply object_none. }
  pose proof (classCount_keys _ _ Ks1) as C1.
  pose proof (checkBounds_full (classCount w) w1 _ r2 W1 Omin1 Omax1) as F.
  destruct (boundsError (classCount w) (resolved (classCount w) r1) r2)
    as [e|] eqn:BE.
  - (* the checks throw: the world after the first half is a fixed point *)
    rewrite F in V. inversion V; subst w' res.
    destruct (validateSchema_split w1 _ r2 W1 T1 E1 Omin1 Omax1)
      as (w1' & V1' & _).
    rewrite validateSchema_bounds by assumption.
    rewrite (requiredChars_classCount w1 W1 T1 E1), C1.
    unfold bind at 1.
    rewrite (resolveMinimum_fixed _ _ _ (classCount_nonneg w) Omin1
               (resolved_fixed _ _)).
    exact F.
  - destruct F as (w2 & F & W2 & Omin2 & Omax2 & Fr2 & Ks2 & L2 & R2 & M2).
    rewrite F in V. inversion V; subst w' res.
    assert (T2 : truthy (s_matchingProperty (schema w2)) = false)
      by now rewrite M2.
    assert (E2 : lookup Kemail (s_rules (schema w2)) = None).
    { apply object_none. rewrite Fr2 by discriminate. now apply object_none. }
    rewrite validateSchema_bounds by assumption.
    rewrite (requiredChars_classCount w2 W2 T2 E2).
    rewrite (classCount_keys _ _ Ks2), C1.
    unfold bind at 1.
    rewrite (resolveMinimum_fixed _ _ (deleteValue (resolved (classCount w) r1))
               (classCount_nonneg w) Omin2) by reflexivity.
    rewrite (checkBounds_deleted _ _ _ _ Omin2 Omax2) by reflexivity.
    now rewrite L2, R2, M2, L1, R1, M1.
Qed.

Lemma compilation_is_idempotent_witness :
  let w := fst (chain Demo.password (mkWorld (DEFAULT_RULES 255) newSchema)) in
  validateSchema (fst (validateSchema w))
  = (fst (validateSchema w), snd (validateSchema w)).
Proof.
  intro w.
  apply (compilation_is_idempotent Demo.password (DEFAULT_RULES 255) w);
    reflexivity.
Defined.

(** ** The order and the content of the compiled rules *)

Lemma NoDup_keys_assign (k : RuleKind) (e : Entry) rs :
  NoDup (map fst rs) -> NoDup (map fst (assign k e rs)).
Proof.
  intro N. rewrite keys_assign.
  destruct (has k rs) eqn:H; [now rewrite app_nil_r|].
  apply NoDup_app; [exact N | repeat constructor; intros [] |].
  intros x Hx [<-|[]]. apply has_iff_In in Hx. congruence.
Qed.

Lemma NoDup_keys_step (c : Call) (w : World) :
  NoDup (keys w) -> NoDup (keys (fst (step c w))).
Proof.
  intro N.
  assert (A : forall k r ce, NoDup (keys (attach k r ce w))).
  { intros. unfold keys, attach; cbn. now apply NoDup_keys_assign. }
  destruct c; cbn [step];
    try (destruct (v <? 0)); try (destruct (String.eqb name ""));
    cbn [fst]; try apply A; try exact N.
  - rewrite keys_overrideError. apply A.
  - unfold keys; cbn. now apply NoDup_keys_assign.
Qed.

Lemma NoDup_keys_chain (cs : list Call) (w : World) :
  NoDup (keys w) -> NoDup (keys (fst (chain cs w))).
Proof.
  revert w. induction cs as [|c cs IH]; intros w N; cbn; [exact N|].
  unfold bind. rewrite call_step.
  pose proof (NoDup_keys_step c w N) as N1.
  destruct (step c w) as [w1 [[]|e]]; cbn [fst] in *; auto.
Qed.

Lemma built_keys (cs : list Call) (d : Defaults) (w : World) :
  built cs d w ->
  NoDup (keys w) /\ exists rest, keys w = Kminimum :: Kmaximum :: rest.
Proof.
  intro B. unfold built in B. split.
  - pose proof (NoDup_keys_chain cs (mkWorld d newSchema)) as N.
    rewrite B in N. apply N. repeat constructor; cbn; intuition discriminate.
  - destruct (keys_chain cs (mkWorld d newSchema)) as [extra E].
    rewrite B in E. exists extra. exact E.
Qed.

Lemma lookup_skip (k k0 : RuleKind) (e0 : Entry) rs :
  k <> k0 -> lookup k ((k0, e0) :: rs) = lookup k rs.
Proof.
  intro N. cbn. destruct (kindEqb k k0) eqn:E; [|reflexivity].
  apply kindEqb_eq in E. congruence.
Qed.

Lemma values_objects (w : World) :
  NoDup (keys w) ->
  values (defaults w) (s_rules (schema w))
  = map (fun k => object k w) (keys w).
Proof.
  unfold keys, object, values. generalize (defaults w) as d.
  generalize (s_rules (schema w)) as rs. clear w.
  induction rs as [|[k e] rs IH]; intros d N; [reflexivity|].
  cbn [map fst snd]. inversion N as [|k' l Hk N']; subst.
  f_equal.
  - cbn. now rewrite kindEqb_refl.
  - rewrite (IH d N'). apply map_ext_in.
    intros k1 Hin. rewrite lookup_skip; [reflexivity|].
    intros ->. now apply Hk.
Qed.

Lemma validateSchema_rules (cs : list Call) (d : Defaults) (w w' : World)
    (c : Compiled) :
  built cs d w ->
  email w = false -> matchingProperty w = None ->
  validateSchema w = (w', Ok c) ->
  c_rules c = map (compiledRule w) (keys w) /\
  c_label c = alias w /\ c_required c = s_required (schema w) /\
  c_matchingProperty c = None.
Proof.
  intros B He Hm V. destruct (built_wf _ _ _ B) as [W _].
  destruct (built_keys _ _ _ B) as [N _].
  apply email_false in He. unfold matchingProperty in Hm.
  assert (T : truthy (s_matchingProperty (schema w)) = false)
    by now rewrite Hm.
  destruct (wf_object_bounds w W) as (r1 & r2 & O1 & O2).
  destruct (validateSchema_split w r1 r2 W T He O1 O2)
    as (w1 & V1 & W1 & Omin1 & Omax1 & Fr1 & Ks1 & L1 & R1 & M1).
  rewrite V1 in V.
  pose proof (checkBounds_full (classCount w) w1 _ r2 W1 Omin1 Omax1) as F.
  destruct (boundsError _ _ _); [rewrite F in V; discriminate|].
  destruct F as (w2 & F & W2 & Omin2 & Omax2 & Fr2 & Ks2 & L2 & R2 & M2).
  rewrite F in V. inversion V; subst w' c; clear V. cbn.
  rewrite L1, R1, M1, Hm. repeat split.
  rewrite values_objects by (rewrite Ks2, Ks1; exact N).
  rewrite Ks2, Ks1. apply map_ext. intro k.
  destruct k; cbn [compiledRule];
    rewrite ?Omin2, ?Omax2, ?O1, ?O2; try reflexivity;
    (rewrite Fr2 by discriminate); (rewrite Fr1 by discriminate); reflexivity.
Qed.

(** X10: a successful compilation of a schema with neither email nor
    matching property returns the rules in the order of their first
    attachment, one element per property of [rules]: the minimum rule, with
    a sentinel value replaced first, and the maximum rule without their
    [value], and every other rule as the builder holds it; the label and
    the required message are the builder's and there is no matching
    property. *)
Theorem compiled_rules_are (cs : list Call) (d : Defaults) (w w' : World)
    (c : Compiled) :
  built cs d w ->
  email w = false -> matchingProperty w = None ->
  validateSchema w = (w', Ok c) ->
  c_rules c = map (compiledRule w) (keys w) /\
  c_label c = alias w /\ c_required c = s_required (schema w) /\
  c_matchingProperty c = None.
Proof.
  intros B He Hm V. exact (validateSchema_rules cs d w w' c B He Hm V).
Qed.

Lemma compiled_rules_are_witness :
  let w := fst (chain Demo.password (mkWorld (DEFAULT_RULES 255) newSchema)) in
  exists c,
    snd (validateSchema w) = Ok c /\
    c_rules c = map (compiledRule w) (keys w) /\
    c_label c = alias w /\ c_required c = s_required (schema w) /\
    c_matchingProperty c = None.
Proof.
  intro w. eexists. split; [reflexivity|].
  apply (compiled_rules_are Demo.password (DEFAULT_RULES 255) w
           (fst (validateSchema w))); reflexivity.
Defined.

(** X11: in a schema with neither email nor matching property the
    properties of [rules] are [minimum], [maximum] and then the attached
    character classes, as many as the class getters report. *)
Theorem bounds_come_first (cs : list Call) (d : Defaults) (w : World) :
  built cs d w ->
  email w = false -> matchingProperty w = None ->
  exists classes,
    keys w = Kminimum :: Kmaximum :: classes /\
    Z.of_nat (length classes) = classCount w /\
    forall k, In k classes ->
              k = Kdigit \/ k = Ksymbol \/ k = Kuppercase \/ k = Klowercase.
Proof.
  intros B He Hm. destruct (built_wf _ _ _ B) as [W _].
  destruct (built_keys _ _ _ B) as [N [rest K]].
  apply email_false in He. unfold matchingProperty in Hm.
  assert (T : truthy (s_matchingProperty (schema w)) = false)
    by now rewrite Hm.
  exists rest. split; [exact K|]. split.
  - rewrite <- (requiredChars_classCount w W T He).
    assert (L : length (s_rules (schema w)) = S (S (length rest))).
    { rewrite <- (length_map fst (s_rules (schema w))).
      unfold keys in K. now rewrite K. }
    rewrite L. unfold DEFAULT_KEYS. cbn [length]. lia.
  - intros k Hk.
    assert (Hin : In k (keys w)) by (rewrite K; right; right; exact Hk).
    rewrite K in N. inversion N as [|? ? N1 N2]; subst.
    inversion N2 as [|? ? N3 _]; subst.
    destruct k; auto.
    + elim N1. now right.
    + elim N3. exact Hk.
    + apply has_iff_In in Hin. unfold has in Hin. now rewrite He in Hin.
    + apply has_iff_In in Hin. rewrite (wf_matching _ W), T in Hin.
      discriminate.
Qed.

Lemma bounds_come_first_witness :
  let w := fst (chain Demo.password (mkWorld (DEFAULT_RULES 255) newSchema)) in
  exists classes,
    keys w = Kminimum :: Kmaximum :: classes /\
    Z.of_nat (length classes) = classCount w /\
    forall k, In k classes ->
              k = Kdigit \/ k = Ksymbol \/ k = Kuppercase \/ k = Klowercase.
Proof.
  intro w.
  apply (bounds_come_first Demo.password (DEFAULT_RULES 255) w); reflexivity.
Defined.

(** ** No compiled rule keeps a [value] *)

Lemma valueFree_assign (k : RuleKind) (r : Rule) rs :
  Forall valueFree rs ->
  (k = Kminimum \/ k = Kmaximum \/ value r = None) ->
  Forall valueFree (assign k (Own r) rs).
Proof.
  intros F H. apply Forall_assign; [exact F|].
  unfold valueFree; cbn. destruct k; intuition discriminate.
Qed.

Lemma valueFree_step (c : Call) (w : World) :
  Forall valueFree (s_rules (schema w)) ->
  Forall valueFree (s_rules (schema (fst (step c w)))).
Proof.
  intro F.
  assert (A : forall k r ce,
            (k = Kminimum \/ k = Kmaximum \/ value r = None) ->
            Forall valueFree (s_rules (schema (attach k r ce w)))).
  { intros k r ce H. unfold attach; cbn. apply valueFree_assign; auto.
    now rewrite value_customize. }
  destruct c; cbn [step];
    try (destruct (v <? 0)); try (destruct (String.eqb name ""));
    cbn [fst]; try exact F; try (apply A; auto).
  - pose proof (A Klowercase LOWERCASE None
                  (or_intror (or_intror eq_refl))) as F1.
    unfold overrideError.
    destruct customError as [t|]; [|exact F1].
    destruct (truthy (Some t)); [|exact F1].
    unfold updateObject.
    destruct (lookup Kuppercase
                (s_rules (schema (attach Klowercase LOWERCASE None w))))
      as [[[]|r]|] eqn:L; cbn [fst schema s_rules setRules]; try exact F1.
    apply valueFree_assign; [exact F1|]. right; right.
    apply lookup_In in L. rewrite Forall_forall in F1.
    exact (F1 _ L).
  - cbn. apply valueFree_assign; auto. right; right.
    unfold matchRule. destruct customError as [t|];
      [destruct (truthy (Some t))|]; reflexivity.
Qed.

Lemma built_valueFree (cs : list Call) (d : Defaults) (w : World) :
  built cs d w -> Forall valueFree (s_rules (schema w)).
Proof.
  unfold built.
  assert (G : forall w0, Forall valueFree (s_rules (schema w0)) ->
              Forall valueFree (s_rules (schema (fst (chain cs w0))))).
  { induction cs as [|c cs IH]; intros w0 F; cbn; [exact F|].
    unfold bind. rewrite call_step.
    pose proof (valueFree_step c w0 F) as F1.
    destruct (step c w0) as [w1 [[]|e]]; cbn [fst] in *; auto. }
  intro B. specialize (G (mkWorld d newSchema)). rewrite B in G.
  apply G. repeat constructor.
Qed.

Lemma built_object_valueFree (cs : list Call) (d : Defaults) (w : World)
    (k : RuleKind) (r : Rule) :
  built cs d w -> k <> Kminimum -> k <> Kmaximum ->
  object k w = Some r -> value r = None.
Proof.
  intros B N1 N2 O. destruct (built_wf _ _ _ B) as [W _].
  pose proof (built_valueFree _ _ _ B) as F. rewrite Forall_forall in F.
  unfold object in O.
  destruct (lookup k (s_rules (schema w))) as [e|] eqn:L; [|discriminate].
  pose proof (wf_lookup _ _ _ W L) as Oe.
  apply lookup_In in L. specialize (F _ L). unfold valueFree in F; cbn in F.
  cbn in O. inversion O; subst r.
  destruct e as [[]|r0]; cbn in *; try congruence.
  destruct k; auto; congruence.
Qed.

Lemma built_matchingProperty_truthy (cs : list Call) (d : Defaults)
    (w : World) :
  built cs d w ->
  s_matchingProperty (schema w) = None \/
  truthy (s_matchingProperty (schema w)) = true.
Proof.
  revert w. induction cs as [|x cs IH] using rev_ind; intros w B.
  - inversion B. now left.
  - apply built_snoc in B as [w1 [B1 S]].
    destruct (isMatches x) eqn:X.
    + destruct x; try discriminate. cbn [step] in S.
      destruct (String.eqb name "") eqn:N; inversion S; subst; cbn.
      right. now rewrite N.
    + destruct (step_frame _ _ _ _ S) as (_ & _ & Fm & _).
      rewrite (Fm X). now apply IH.
Qed.

(** X12: whichever branch returns, no element of a compiled [rules] array
    has a [value]. *)
Theorem compiled_rules_have_no_value (cs : list Call) (d : Defaults)
    (w w' : World) (c : Compiled) :
  built cs d w -> validateSchema w = (w', Ok c) ->
  Forall hasNoValue (c_rules c).
Proof.
  intros B V. destruct (built_wf _ _ _ B) as [W _].
  destruct (truthy (s_matchingProperty (schema w))) eqn:T.
  { rewrite validateSchema_matching in V by exact T.
    inversion V; subst; clear V. cbn [c_rules].
    pose proof (wf_matching _ W) as Hm. rewrite T in Hm. unfold has in Hm.
    destruct (object KmatchingProperty w') as [r|] eqn:O.
    - constructor; [|constructor]. exists r. split; [reflexivity|].
      now apply (built_object_valueFree _ _ _ KmatchingProperty r B).
    - apply object_none in O. rewrite O in Hm. discriminate. }
  destruct (lookup Kemail (s_rules (schema w))) as [e|] eqn:E.
  { rewrite (validateSchema_email w e T E) in V.
    inversion V; subst; clear V. cbn [c_rules].
    constructor; [|constructor]. eexists. split; [reflexivity|].
    apply (built_object_valueFree _ _ _ Kemail _ B); try discriminate.
    unfold object. now rewrite E. }
  assert (He : email w = false) by (unfold email, present; now rewrite E).
  assert (Hm : matchingProperty w = None).
  { unfold matchingProperty.
    destruct (built_matchingProperty_truthy _ _ _ B); congruence. }
  destruct (validateSchema_rules _ _ _ _ _ B He Hm V) as (R & _).
  rewrite R. rewrite Forall_forall. intros o Ho.
  apply in_map_iff in Ho as (k & <- & Hk).
  destruct (wf_object_bounds w W) as (r1 & r2 & O1 & O2).
  destruct k; cbn [compiledRule]; rewrite ?O1, ?O2; cbn;
    try (eexists; split; reflexivity).
  all: apply has_iff_In in Hk; unfold has in Hk;
    match goal with
    | |- hasNoValue (object ?k ?w0) =>
        destruct (object k w0) as [r|] eqn:O;
        [exists r; split; [reflexivity|];
         apply (built_object_valueFree _ _ _ k r B); (discriminate || exact O)
        | apply object_none in O; rewrite O in Hk; discriminate]
    end.
Qed.

Lemma compiled_rules_have_no_value_witness :
  let w := fst (chain Demo.password (mkWorld (DEFAULT_RULES 255) newSchema)) in
  exists c, snd (validateSchema w) = Ok c /\ Forall hasNoValue (c_rules c).
Proof.
  intro w. eexists. split; [reflexivity|].
  apply (compiled_rules_have_no_value Demo.password (DEFAULT_RULES 255) w
           (fst (validateSchema w))); reflexivity.
Defined.

(** X13: after a successful compilation of a schema with neither email nor
    matching property, the [minimum] and [maximum] getters of the instance
    return [undefined], while the other getters return what they returned
    before. *)
Theorem getters_after_compilation (cs : list Call) (d : Defaults)
    (w w' : World) (c : Compiled) :
  built cs d w ->
  email w = false -> matchingProperty w = None ->
  validateSchema w = (w', Ok c) ->
  minimum w' = Ok None /\ maximum w' = Ok None /\
  digit w' = digit w /\ symbol w' = symbol w /\
  uppercase w' = uppercase w /\ lowercase w' = lowercase w /\
  alias w' = alias w /\ required w' = required w.
Proof.
  intros B He Hm V. destruct (built_wf _ _ _ B) as [W _].
  apply email_false in He. unfold matchingProperty in Hm.
  assert (T : truthy (s_matchingProperty (schema w)) = false)
    by now rewrite Hm.
  destruct (wf_object_bounds w W) as (r1 & r2 & O1 & O2).
  destruct (validateSchema_split w r1 r2 W T He O1 O2)
    as (w1 & V1 & W1 & Omin1 & Omax1 & Fr1 & Ks1 & L1 & R1 & M1).
  rewrite V1 in V.
  pose proof (checkBounds_full (classCount w) w1 _ r2 W1 Omin1 Omax1) as F.
  destruct (boundsError _ _ _); [rewrite F in V; discriminate|].
  destruct F as (w2 & F & W2 & Omin2 & Omax2 & Fr2 & Ks2 & L2 & R2 & M2).
  rewrite F in V. inversion V; subst w' c; clear V.
  assert (K : keys w2 = keys w) by congruence.
  unfold minimum, maximum. rewrite !readValue_object, Omin2, Omax2.
  unfold digit, symbol, uppercase, lowercase.
  rewrite !(present_keys _ _ _ K).
  unfold alias, required. rewrite L2, L1, R2, R1. repeat split.
Qed.

Lemma getters_after_compilation_witness :
  let w := fst (chain Demo.password (mkWorld (DEFAULT_RULES 255) newSchema)) in
  let w' := fst (validateSchema w) in
  minimum w' = Ok None /\ maximum w' = Ok None /\
  digit w' = digit w /\ symbol w' = symbol w /\
  uppercase w' = uppercase w /\ lowercase w' = lowercase w /\
  alias w' = alias w /\ required w' = required w.
Proof.
  intros w w'.
  pose (c := match snd (validateSchema w) with
             | Ok c => c
             | Throw _ => mkCompiled None None None []
             end).
  apply (getters_after_compilation Demo.password (DEFAULT_RULES 255) w w' c);
    reflexivity.
Defined.

(** ** Which error a compilation throws *)

(** X14: compiling a built schema throws nothing but the two bound errors,
    and only when neither email nor matching property is set: a schema
    with [isEmail] or [matches] always compiles. *)
Theorem compilation_throws_only_bound_errors (cs : list Call) (d : Defaults)
    (w : World) :
  built cs d w ->
  throws (snd (validateSchema w)) = true ->
  email w = false /\ matchingProperty w = None /\
  (snd (validateSchema w) = Throw (Error INVALID_MIN_OVER_MAX) \/
   snd (validateSchema w) = Throw (Error INVALID_MIN_MAX)).
Proof.
  intros B. destruct (built_wf _ _ _ B) as [W _].
  destruct (truthy (s_matchingProperty (schema w))) eqn:T.
  { rewrite validateSchema_matching by exact T. discriminate. }
  destruct (lookup Kemail (s_rules (schema w))) as [e|] eqn:E.
  { rewrite (validateSchema_email w e T E). discriminate. }
  destruct (wf_object_bounds w W) as (r1 & r2 & O1 & O2).
  destruct (validateSchema_split w r1 r2 W T E O1 O2)
    as (w1 & V1 & W1 & Omin1 & Omax1 & _).
  rewrite V1.
  pose proof (checkBounds_full (classCount w) w1 _ r2 W1 Omin1 Omax1) as F.
  intro H. split; [unfold email, present; now rewrite E|].
  split.
  { unfold matchingProperty.
    destruct (built_matchingProperty_truthy _ _ _ B); congruence. }
  unfold boundsError in F.
  destruct (jsGt _ _); [rewrite F; now left|].
  destruct (_ || _)%bool; [rewrite F; now right|].
  destruct F as (w2 & F & _). rewrite F in H. discriminate.
Qed.

Lemma compilation_throws_only_bound_errors_witness :
  let w := fst (chain [HasDigit None; HasSymbol None; HasUppercase None;
                       HasLowercase None]
                  (mkWorld (DEFAULT_RULES 3) newSchema)) in
  email w = false /\ matchingProperty w = None /\
  (snd (validateSchema w) = Throw (Error INVALID_MIN_OVER_MAX) \/
   snd (validateSchema w) = Throw (Error INVALID_MIN_MAX)).
Proof.
  intro w.
  apply (compilation_throws_only_bound_errors
           [HasDigit None; HasSymbol None; HasUppercase None;
            HasLowercase None]
           (DEFAULT_RULES 3) w); reflexivity.
Defined.

(** X15: which error: with bounds reading [a] and [b], compilation throws
    the minimum-over-maximum error exactly when the maximum is below the
    effective minimum (the class count in place of the sentinel 0), and the
    minimum-or-maximum error exactly when it is not and a bound is below
    the class count. *)
Theorem compilation_error_kinds (cs : list Call) (d : Defaults) (w : World)
    (a b : Z) :
  built cs d w ->
  email w = false -> matchingProperty w = None ->
  minimum w = Ok (Some a) -> maximum w = Ok (Some b) ->
  (snd (validateSchema w) = Throw (Error INVALID_MIN_OVER_MAX) <->
   b < effectiveMinimum (classCount w) a) /\
  (snd (validateSchema w) = Throw (Error INVALID_MIN_MAX) <->
   effectiveMinimum (classCount w) a <= b /\
   (b < classCount w \/ effectiveMinimum (classCount w) a < classCount w)).
Proof.
  intros B He Hm Ha Hb.
  destruct (built_wf _ _ _ B) as [W _].
  apply email_false in He. unfold matchingProperty in Hm.
  assert (T : truthy (s_matchingProperty (schema w)) = false)
    by now rewrite Hm.
  apply getter_object in Ha as (r1 & O1 & V1).
  apply getter_object in Hb as (r2 & O2 & V2).
  destruct (validateSchema_checks w r1 r2 W T He O1 O2) as (w' & V & _).
  rewrite V; cbn [snd]. unfold resolved, effectiveMinimum. rewrite V1, V2.
  unfold isDefaultMin, DEFAULT_MIN.
  destruct (Z.eqb_spec a 0) as [->|Na]; cbn [value minLengthRule jsGt jsLt];
    [|rewrite V1; cbn [jsGt jsLt]];
    repeat match goal with
           | |- context [?x <? ?y] => destruct (Z.ltb_spec x y)
           end; cbn; split; split; intro Hx; try reflexivity;
    try discriminate; try lia.
Qed.

Lemma compilation_error_kinds_witness :
  let w := fst (chain [HasDigit None; HasSymbol None; HasUppercase None;
                       HasLowercase None]
                  (mkWorld (DEFAULT_RULES 3) newSchema)) in
  (snd (validateSchema w) = Throw (Error INVALID_MIN_OVER_MAX) <->
   3 < effectiveMinimum (classCount w) 0) /\
  (snd (validateSchema w) = Throw (Error INVALID_MIN_MAX) <->
   effectiveMinimum (classCount w) 0 <= 3 /\
   (3 < classCount w \/ effectiveMinimum (classCount w) 0 < classCount w)).
Proof.
  intro w.
  apply (compilation_error_kinds
           [HasDigit None; HasSymbol None; HasUppercase None;
            HasLowercase None]
           (DEFAULT_RULES 3) w 0 3); reflexivity.
Defined.

(** ** The sentinel minimum *)

Lemma built_no_min (cs : list Call) (d : Defaults) (w : World) :
  built cs d w -> (forall c, In c cs -> isMin c = false) ->
  lookup Kminimum (s_rules (schema w)) = Some (Ref DefaultMinimum).
Proof.
  revert w. induction cs as [|x cs IH] using rev_ind; intros w B H.
  - inversion B; reflexivity.
  - apply built_snoc in B as [w1 [B1 S]].
    destruct (step_frame _ _ _ _ S) as (_ & _ & _ & Fk).
    rewrite Fk.
    + apply IH; auto. intros c Hc. apply H, in_or_app. now left.
    + assert (X : isMin x = false) by (apply H, in_or_app; right; now left).
      destruct x; try reflexivity; discriminate.
Qed.

(** X16: while the shared default minimum still holds the sentinel,
    compiling a schema on which [min] was never called, with neither email
    nor matching property, replaces the pattern and the message of the
    minimum rule by those of [getMinLengthRule] at the number of attached
    character-class rules, and does so even when the compilation then
    throws. *)
Theorem unset_minimum_is_derived (cs : list Call) (d : Defaults) (w : World) :
  built cs d w ->
  (forall c, In c cs -> isMin c = false) ->
  value (d_minimum d) = Some DEFAULT_MIN ->
  email w = false -> matchingProperty w = None ->
  exists r,
    object Kminimum (fst (validateSchema w)) = Some r /\
    pattern r = Some (MinLengthP (classCount w)) /\
    error r = MsgMinLength (classCount w).
Proof.
  intros B N D He Hm.
  apply (sentinel_minimum_is_derived cs d w B He Hm).
  destruct (built_wf _ _ _ B) as [_ Dw].
  unfold minimum, readValue.
  rewrite (built_no_min _ _ _ B N). cbn. now rewrite Dw, D.
Qed.

Lemma unset_minimum_is_derived_witness :
  let w := fst (chain [HasDigit None; HasSymbol None; Max 7 None]
                  (mkWorld (DEFAULT_RULES 255) newSchema)) in
  exists r,
    object Kminimum (fst (validateSchema w)) = Some r /\
    pattern r = Some (MinLengthP (classCount w)) /\
    error r = MsgMinLength (classCount w).
Proof.
  intro w.
  apply (unset_minimum_is_derived [HasDigit None; HasSymbol None; Max 7 None]
           (DEFAULT_RULES 255) w).
  - reflexivity.
  - intros c Hc. cbn in Hc.
    repeat (destruct Hc as [<-|Hc]; [reflexivity|]). destruct Hc.
  - reflexivity.
  - reflexivity.
  - reflexivity.
Defined.

(** ** [hooks/useForm.js] *)

Lemma field_In {A} (name : string) (v : A) (o : list (string * A)) :
  UseForm.field name o = Some v -> In (name, v) o.
Proof.
  induction o as [|[k v'] o IH]; cbn; [discriminate|].
  destruct (String.eqb_spec name k) as [->|N].
  - intro H; inversion H. now left.
  - intro H. right. now apply IH.
Qed.

Lemma In_field {A} (name : string) (v : A) (o : list (string * A)) :
  In (name, v) o -> UseForm.field name o <> None.
Proof.
  induction o as [|[k v'] o IH]; cbn; [tauto|].
  intros [H|H].
  - inversion H; subst. now rewrite String.eqb_refl.
  - destruct (String.eqb name k); [discriminate | auto].
Qed.

Lemma field_setField {A} (name k : string) (v : A) (o : list (string * A)) :
  UseForm.field name (UseForm.setField k v o)
  = if String.eqb name k then Some v else UseForm.field name o.
Proof.
  induction o as [|[k0 v0] o IH]; cbn.
  - reflexivity.
  - destruct (String.eqb_spec k k0) as [->|N]; cbn.
    + destruct (String.eqb name k0); reflexivity.
    + destruct (String.eqb_spec name k0) as [->|N0].
      * destruct (String.eqb_spec k0 k) as [->|]; [congruence | reflexivity].
      * exact IH.
Qed.

Lemma field_assignString (name k v : string) (f : UseForm.Form) :
  UseForm.field "__proto__" f = None ->
  UseForm.field name (UseForm.assignString k v f)
  = if String.eqb k "__proto__" then UseForm.field name f
    else if String.eqb name k then Some v else UseForm.field name f.
Proof.
  intro P. unfold UseForm.assignString.
  destruct (String.eqb_spec k "__proto__") as [->|N].
  - now rewrite P.
  - destruct (UseForm.field k f); apply field_setField.
Qed.

Lemma hasOwnProperty_own {A} (o : list (string * A)) (name : string) (v : A) :
  UseForm.field "hasOwnProperty" o = None -> In (name, v) o ->
  UseForm.hasOwnProperty o name = Ok true.
Proof.
  intros H Hin. unfold UseForm.hasOwnProperty. rewrite H.
  apply In_field in Hin. now destruct (UseForm.field name o).
Qed.

Lemma emptyFields_spec (E : string) (schema rest : UseForm.FormSchema)
    (f : UseForm.Form) :
  UseForm.field "hasOwnProperty" schema = None ->
  (forall k v, In (k, v) rest -> In (k, v) schema) ->
  UseForm.field "__proto__" f = None ->
  exists f',
    UseForm.emptyFields E schema rest f = Ok f' /\
    UseForm.field "__proto__" f' = None /\
    forall name, name <> "__proto__" ->
      UseForm.field name f'
      = match UseForm.field name rest with
        | Some _ => Some E
        | None => UseForm.field name f
        end.
Proof.
  intros H. revert f. induction rest as [|[k s] rest IH]; intros f Sub P.
  - exists f. cbn. auto.
  - cbn [UseForm.emptyFields].
    rewrite (hasOwnProperty_own schema k s H) by (apply Sub; now left).
    destruct (IH (UseForm.assignString k E f)) as (f' & Ef & Pf & Ff).
    + intros k0 v0 Hin. apply Sub. now right.
    + rewrite field_assignString by exact P.
      destruct (String.eqb_spec k "__proto__") as [->|N]; [exact P|].
      destruct (String.eqb_spec "__proto__" k) as [<-|]; [congruence|exact P].
    + exists f'. split; [exact Ef|]. split; [exact Pf|].
      intros name Hn. rewrite (Ff name Hn). cbn [UseForm.field].
      rewrite field_assignString by exact P.
      destruct (String.eqb_spec name k) as [->|Nk].
      * apply String.eqb_neq in Hn. rewrite Hn.
        now destruct (UseForm.field k rest).
      * destruct (UseForm.field name rest); [reflexivity|].
        now destruct (String.eqb k "__proto__").
Qed.

Lemma emptyFields_shadowed (E : string) (schema rest : UseForm.FormSchema)
    (f : UseForm.Form) (s : State) :
  UseForm.field "hasOwnProperty" schema = Some s -> rest <> [] ->
  UseForm.emptyFields E schema rest f = Throw TypeError.
Proof.
  intros H N. destruct rest as [|[k v] rest]; [congruence|].
  cbn. unfold UseForm.hasOwnProperty. now rewrite H.
Qed.

(** X17: without an initial state, [init] on a schema that has no field
    named [hasOwnProperty] returns a form that holds the empty value under
    every property of the schema except [__proto__], and nothing else, with
    no errors and the empty value as submit error; on a schema with a field
    named [hasOwnProperty] it throws a [TypeError]; a given initial state is
    returned as it is, whatever the schema. *)
Theorem init_gives_every_field_the_empty_value (E : string)
    (schema : UseForm.FormSchema) (f : UseForm.Form) :
  (UseForm.field "hasOwnProperty" schema = None ->
   exists st,
     UseForm.init E schema None = Ok st /\
     UseForm.errors st = [] /\ UseForm.submitError st = E /\
     UseForm.field "__proto__" (UseForm.form st) = None /\
     forall name, name <> "__proto__" ->
       UseForm.field name (UseForm.form st)
       = match UseForm.field name schema with
         | Some _ => Some E
         | None => None
         end) /\
  (UseForm.field "hasOwnProperty" schema <> None ->
   UseForm.init E schema None = Throw TypeError) /\
  UseForm.init E schema (Some f) = Ok (UseForm.mkFormState f [] E).
Proof.
  split; [|split; [|reflexivity]].
  - intro H.
    destruct (emptyFields_spec E schema schema [] H (fun _ _ X => X) eq_refl)
      as (f' & Ef & Pf & Ff).
    unfold UseForm.init. rewrite Ef. eexists. split; [reflexivity|].
    cbn. repeat split; auto.
  - intro H. unfold UseForm.init.
    destruct (UseForm.field "hasOwnProperty" schema) as [s|] eqn:F;
      [|congruence].
    rewrite (emptyFields_shadowed E schema schema [] s F); [reflexivity|].
    intros ->. discriminate.
Qed.

Lemma init_gives_every_field_the_empty_value_witness :
  (exists st,
     UseForm.init "" passwordPair None = Ok st /\
     UseForm.errors st = [] /\ UseForm.submitError st = "" /\
     UseForm.field "__proto__" (UseForm.form st) = None /\
     forall name, name <> "__proto__" ->
       UseForm.field name (UseForm.form st)
       = match UseForm.field name passwordPair with
         | Some _ => Some ""
         | None => None
         end) /\
  UseForm.init "" (("hasOwnProperty", newSchema) :: passwordPair) None
  = Throw TypeError.
Proof.
  split.
  - apply (proj1 (init_gives_every_field_the_empty_value "" passwordPair [])).
    reflexivity.
  - apply (proj1 (proj2 (init_gives_every_field_the_empty_value ""
                           (("hasOwnProperty", newSchema) :: passwordPair)
                           []))).
    discriminate.
Defined.

Lemma findMatching_some (p q : string) (fs rest : UseForm.FormSchema) :
  UseForm.findMatching p fs rest = Ok (Some q) ->
  q <> p /\ exists s, In (q, s) rest /\ s_matchingProperty s = Some p.
Proof.
  induction rest as [|[k s] rest IH]; cbn; [discriminate|].
  destruct (String.eqb_spec k p) as [->|N].
  - intro H. destruct (IH H) as [Hq [s' [Hin Hs]]]. eauto.
  - destruct (UseForm.hasOwnProperty fs k) as [own|e]; [|discriminate].
    destruct (own && UseForm.isProperty (s_matchingProperty s) p)%bool eqn:C.
    + intro H; injection H as <-. split; [exact N|].
      apply andb_true_iff in C as [_ C]. unfold UseForm.isProperty in C.
      destruct (s_matchingProperty s) as [m|] eqn:M; [|discriminate].
      apply String.eqb_eq in C; subst m. eauto.
    + intro H. destruct (IH H) as [Hq [s' [Hin Hs]]]. eauto.
Qed.

Lemma findMatching_none (p : string) (fs rest : UseForm.FormSchema) :
  (forall k v, In (k, v) rest -> In (k, v) fs) ->
  UseForm.findMatching p fs rest = Ok None ->
  forall q s, In (q, s) rest -> q <> p -> s_matchingProperty s <> Some p.
Proof.
  induction rest as [|[k s] rest IH]; cbn [UseForm.findMatching];
    intros Sub; [intros _ q s0 []|].
  assert (Sub' : forall k0 v0, In (k0, v0) rest -> In (k0, v0) fs)
    by (intros; apply Sub; now right).
  destruct (String.eqb_spec k p) as [->|N].
  - intros H q s0 [X|X] Hq; [inversion X; congruence | eauto].
  - unfold UseForm.hasOwnProperty.
    destruct (UseForm.field "hasOwnProperty" fs) as [h|]; [discriminate|].
    assert (O : UseForm.field k fs <> None)
      by (apply (In_field k s); apply Sub; now left).
    destruct (UseForm.field k fs) as [sk|]; [|congruence]. cbn [andb].
    destruct (UseForm.isProperty (s_matchingProperty s) p) eqn:C;
      [discriminate|].
    intros H q s0 [X|X] Hq; [|eauto].
    inversion X; subst. intro M. rewrite M in C. cbn in C.
    now rewrite String.eqb_refl in C.
Qed.

Lemma findMatching_throws (p : string) (fs rest : UseForm.FormSchema)
    (e : Exn) :
  UseForm.findMatching p fs rest = Throw e <->
  e = TypeError /\ UseForm.field "hasOwnProperty" fs <> None /\
  exists q s, In (q, s) rest /\ q <> p.
Proof.
  induction rest as [|[k s] rest IH]; cbn [UseForm.findMatching].
  - split; [discriminate | intros (_ & _ & q & s & [] & _)].
  - destruct (String.eqb_spec k p) as [->|N].
    + rewrite IH. split; intros (He & Hh & q & s0 & Hin & Hq);
        (split; [exact He|]); (split; [exact Hh|]); exists q, s0.
      * split; [now right | exact Hq].
      * destruct Hin as [X|X]; [inversion X; congruence | auto].
    + unfold UseForm.hasOwnProperty.
      destruct (UseForm.field "hasOwnProperty" fs) as [h|] eqn:Hh.
      * split.
        -- intro H; injection H as <-. split; [reflexivity|].
           split; [discriminate|]. exists k, s. split; [now left | exact N].
        -- intros (-> & _). reflexivity.
      * destruct ((match UseForm.field k fs with
                   | Some _ => true | None => false end)
                  && UseForm.isProperty (s_matchingProperty s) p)%bool.
        -- split; [discriminate | intros (_ & X & _); congruence].
        -- rewrite IH. split; intros (_ & X & _); congruence.
Qed.

(** X18: [getMatchingProperty] throws a [TypeError] exactly when the name
    is neither a property of the form nor one it inherits from
    [Object.prototype], or when the property names no partner itself, the
    form has a field named [hasOwnProperty] and the loop reaches another
    property.  A name it returns is the property's own non-empty matching
    property or, failing that, another property whose matching property is
    the given name; it returns [undefined] only when no other property
    matches the given name. *)
Theorem getMatchingProperty_result (p : string) (fs : UseForm.FormSchema) :
  (UseForm.getMatchingProperty p fs = Throw TypeError <->
   (UseForm.field p fs = None /\ UseForm.inherited p = false) \/
   ((exists m, UseForm.ownMatchingProperty p fs = Ok m /\ truthy m = false) /\
    UseForm.field "hasOwnProperty" fs <> None /\
    exists q s, In (q, s) fs /\ q <> p)) /\
  (forall q, UseForm.getMatchingProperty p fs = Ok (Some q) ->
     (exists s, UseForm.field p fs = Some s /\
                s_matchingProperty s = Some q /\ q <> "") \/
     (q <> p /\ exists s, In (q, s) fs /\ s_matchingProperty s = Some p)) /\
  (UseForm.getMatchingProperty p fs = Ok None ->
   forall q s, In (q, s) fs -> q <> p -> s_matchingProperty s <> Some p).
Proof.
  unfold UseForm.getMatchingProperty.
  destruct (UseForm.ownMatchingProperty p fs) as [m|e] eqn:O.
  - destruct (truthy m) eqn:T.
    + split; [|split].
      * split; [discriminate|].
        unfold UseForm.ownMatchingProperty in O.
        intros [[F I]|((m' & Hm & Tm) & _)].
        -- rewrite F, I in O. discriminate.
        -- injection Hm as <-. congruence.
      * intros q H; injection H as ->. left.
        unfold UseForm.ownMatchingProperty in O.
        destruct (UseForm.field p fs) as [s|].
        -- injection O as O. exists s. split; [reflexivity|].
           split; [exact O|]. intros ->. discriminate.
        -- destruct (UseForm.inherited p); [|discriminate].
           injection O as O. discriminate.
      * intro H; injection H as ->. discriminate.
    + split; [|split].
      * rewrite findMatching_throws. split.
        -- intros (_ & Hh & X). right. split; [eauto|]. split; assumption.
        -- intros [[F I]|(_ & Hh & X)].
           ++ unfold UseForm.ownMatchingProperty in O.
              rewrite F, I in O. discriminate.
           ++ auto.
      * intros q H. right. now apply findMatching_some in H.
      * intro H. apply (findMatching_none p fs fs); auto.
  - unfold UseForm.ownMatchingProperty in O.
    destruct (UseForm.field p fs) as [s|] eqn:F; [discriminate|].
    destruct (UseForm.inherited p) eqn:I; [discriminate|].
    injection O as <-.
    split; [split; auto|]. split; [intros q H|intro H]; discriminate.
Qed.

Lemma getMatchingProperty_result_witness :
  UseForm.getMatchingProperty "username" passwordPair = Throw TypeError /\
  UseForm.getMatchingProperty "password"
    (("hasOwnProperty", newSchema) :: passwordPair) = Throw TypeError /\
  ((exists s, UseForm.field "password" passwordPair = Some s /\
              s_matchingProperty s = Some "confirmPassword" /\
              "confirmPassword" <> "") \/
   ("confirmPassword" <> "password" /\
    exists s, In ("confirmPassword", s) passwordPair /\
              s_matchingProperty s = Some "password")) /\
  (forall q s, In (q, s) passwordPair -> q <> "toString" ->
               s_matchingProperty s <> Some "toString").
Proof.
  split; [|split; [|split]].
  - apply (proj1 (getMatchingProperty_result "username" passwordPair)).
    left. split; reflexivity.
  - apply (proj1 (getMatchingProperty_result "password"
                    (("hasOwnProperty", newSchema) :: passwordPair))).
    right. split; [exists None; split; reflexivity|].
    split; [discriminate|].
    exists "hasOwnProperty", newSchema. split; [now left | discriminate].
  - apply (proj1 (proj2 (getMatchingProperty_result "password" passwordPair))).
    reflexivity.
  - apply (proj2 (proj2 (getMatchingProperty_result "toString" passwordPair))).
    reflexivity.
Defined.

(** X19: a pair is found from both sides: in a form with no field named
    [hasOwnProperty], when [b] names [a] as its matching property, [a]
    names none, and no other property names [a], [getMatchingProperty]
    returns [a] for [b] and [b] for [a]. *)
Theorem matching_pair_is_found_from_both_sides (a b : string)
    (fs : UseForm.FormSchema) (sa sb : State) :
  UseForm.field "hasOwnProperty" fs = None ->
  UseForm.field a fs = Some sa -> UseForm.field b fs = Some sb ->
  a <> b -> a <> "" ->
  s_matchingProperty sb = Some a ->
  truthy (s_matchingProperty sa) = false ->
  (forall q s, In (q, s) fs -> s_matchingProperty s = Some a -> q = b) ->
  UseForm.getMatchingProperty b fs = Ok (Some a) /\
  UseForm.getMatchingProperty a fs = Ok (Some b).
Proof.
  intros Hh Fa Fb Nab Na Mb Ta U.
  unfold UseForm.getMatchingProperty, UseForm.ownMatchingProperty.
  rewrite Fa, Fb, Ta, Mb.
  assert (Tb : truthy (Some a) = true).
  { cbn. apply String.eqb_neq in Na. now rewrite Na. }
  rewrite Tb. split; [reflexivity|].
  destruct (UseForm.findMatching a fs fs) as [[q|]|e] eqn:Q.
  - apply findMatching_some in Q as [_ [s [Hin Hs]]].
    do 2 f_equal. exact (U _ _ Hin Hs).
  - exfalso. apply field_In in Fb.
    apply (findMatching_none a fs fs (fun _ _ X => X) Q b sb Fb); auto.
  - apply findMatching_throws in Q as (_ & X & _). congruence.
Qed.


Lemma matching_pair_is_found_from_both_sides_witness :
  UseForm.getMatchingProperty "confirmPassword" passwordPair
  = Ok (Some "password") /\
  UseForm.getMatchingProperty "password" passwordPair
  = Ok (Some "confirmPassword").
Proof.
  apply (matching_pair_is_found_from_both_sides "password" "confirmPassword"
           passwordPair
           (schema (fst (chain Demo.password
                           (mkWorld (DEFAULT_RULES 255) newSchema))))
           (schema (fst (chain Demo.confirmPassword
                           (mkWorld (DEFAULT_RULES 255) newSchema))))).
  - reflexivity.
  - reflexivity.
  - reflexivity.
  - discriminate.
  - discriminate.
  - reflexivity.
  - reflexivity.
  - intros q s [H|[H|[]]]; inversion H; subst; [discriminate | reflexivity].
Defined.
